(** * Block location in czarrapo's decrypt.c

    A shallow embedding of [src/decrypt.c] and [src/error_handling.c]:
    the header reader, the slow (exhaustive) and fast (stub) block
    locators, [_find_selected_block] and [decrypt_file], together with
    the error handlers they call.

    C integers are [Z] with their wrap-around written out, byte buffers
    are [list byte], C strings are [string] (messages, paths) or
    [list byte] (the password, whose [strlen] is its [length]).  Every
    call that touches the outside world (stdio, OpenSSL, [printf]) is
    recorded as an [event]; a computation yields the list of events it
    performed, in order, and an [outcome].  The [DEBUG_PRINT] lines of
    the source only write in debug builds and are left out. *)

From Stdlib Require Import ZArith List String Ascii Bool Lia Sorted.
From Stdlib.Strings Require Import Byte.
From Stdlib Require Import DecimalString.
Import ListNotations.
Open Scope string_scope.
Open Scope list_scope.
Open Scope Z_scope.

(** ** Machine integers *)

(** [size_t] is 64 bits wide, [long int] is its signed counterpart. *)
Definition SIZE_MAX_plus_1 : Z := 2 ^ 64.
Definition LONG_MAX_plus_1 : Z := 2 ^ 63.

Definition to_size_t (x : Z) : Z := x mod SIZE_MAX_plus_1.

Definition to_long (x : Z) : Z :=
  let m := x mod SIZE_MAX_plus_1 in
  if m <? LONG_MAX_plus_1 then m else m - SIZE_MAX_plus_1.

(** [%i] handed an [unsigned int]: the 32 bits are printed as an [int]. *)
Definition to_int (x : Z) : Z :=
  let m := x mod 2 ^ 32 in
  if m <? 2 ^ 31 then m else m - 2 ^ 32.

(** ** Bytes and buffers *)

Fixpoint bytes_eqb (a b : list byte) : bool :=
  match a, b with
  | [], [] => true
  | x :: a', y :: b' => Byte.eqb x y && bytes_eqb a' b'
  | _, _ => false
  end.

(** The first [n] bytes of a buffer. *)
Definition prefix (n : Z) (buf : list byte) : list byte :=
  firstn (Z.to_nat n) buf.

(** [memcmp(a, b, n) == 0]. *)
Definition memcmp_eq (a b : list byte) (n : Z) : bool :=
  bytes_eqb (prefix n a) (prefix n b).

Definition is_some {A : Type} (o : option A) : bool :=
  match o with
  | Some _ => true
  | None => false
  end.

Definition strlen (s : list byte) : Z := Z.of_nat (List.length s).

Definition nl : string := String (ascii_of_nat 10) EmptyString.

(** ** OpenSSL key handle

    The key handle is used through two entry points only:
    [RSA_size] and [RSA_private_decrypt], whose negative return value
    (failure) is [None]. *)

Inductive padding : Type :=
| RSA_NO_PADDING
| RSA_PKCS1_OAEP_PADDING.

Record RSA : Type := mkRSA {
  RSA_size : Z;
  RSA_private_decrypt : list byte -> padding -> option (list byte)
}.

Inductive hash_alg : Type :=
| _BLOCK_HASH
| _CHALLENGE_HASH
| _AUTH_HASH.

(** ** Events and outcomes *)

Inductive event : Type :=
| EvPrintf (msg : string)
| EvFileSize (path : string)
| EvFopen (path : string) (ok : bool)
| EvFclose (path : string)
| EvFseek (path : string) (offset : Z)
| EvFread (path : string) (nmemb got : Z)
| EvRSA_new
| EvPEM_read (ok : bool)
| EvRSA_free
| EvBN_clear_free
| EvDecrypt (from : list byte) (pad : padding) (ok : bool).

(** Behaviour the C standard leaves undefined, where the source can
    reach it. *)
Inductive undefined_behaviour : Type :=
| BufferOverrun
| DivisionByZero
| NullPointer.

Inductive outcome (A : Type) : Type :=
| Ret (a : A)
| Exit (status : Z)
| Undefined (u : undefined_behaviour)
| OutOfFuel.

Arguments Ret {A} a.
Arguments Exit {A} status.
Arguments Undefined {A} u.
Arguments OutOfFuel {A}.

Definition M (A : Type) : Type := (list event * outcome A)%type.

Definition ret {A : Type} (a : A) : M A := ([], Ret a).

Definition bind {A B : Type} (m : M A) (f : A -> M B) : M B :=
  match m with
  | (t, Ret a) => let (t', r) := f a in (t ++ t', r)
  | (t, Exit s) => (t, Exit s)
  | (t, Undefined u) => (t, Undefined u)
  | (t, OutOfFuel) => (t, OutOfFuel)
  end.

Definition emit (e : event) : M unit := ([e], Ret tt).
Definition exit {A : Type} (status : Z) : M A := ([], Exit status).
Definition undefined {A : Type} (u : undefined_behaviour) : M A :=
  ([], Undefined u).
Definition out_of_fuel {A : Type} : M A := ([], OutOfFuel).

Declare Scope cmd_scope.
Delimit Scope cmd_scope with cmd.
Notation "x <- c1 ;; c2" := (bind c1 (fun x => c2))
  (at level 61, c1 at next level, right associativity) : cmd_scope.
Notation "' pat <- c1 ;; c2" := (bind c1 (fun x => match x with pat => c2 end))
  (at level 61, pat pattern, c1 at next level, right associativity) : cmd_scope.
Notation "c1 ;; c2" := (bind c1 (fun _ => c2))
  (at level 61, right associativity) : cmd_scope.
Open Scope cmd_scope.

Definition trace {A : Type} (m : M A) : list event := fst m.
Definition result {A : Type} (m : M A) : outcome A := snd m.

(** [m] with the events [evs] performed before it. *)
Definition prepend {A : Type} (evs : list event) (m : M A) : M A :=
  (evs ++ fst m, snd m).

(** *** Reading a trace *)

(** The offsets handed to [fseek], in order. *)
Fixpoint seeks (t : list event) : list Z :=
  match t with
  | [] => []
  | EvFseek _ offset :: t' => offset :: seeks t'
  | _ :: t' => seeks t'
  end.

(** The offsets a scan seeks when it tries [n] candidates in a row, one
    block size apart, starting with the candidate of index [first]. *)
Definition scan_offsets (end_of_header block_size first : Z) (n : nat) : list Z :=
  map (fun k => end_of_header + Z.of_nat k * block_size) (seq (Z.to_nat first) n).

(** The padding modes handed to [RSA_private_decrypt], in order; their
    number is the number of candidates the scan tried. *)
Fixpoint decrypt_paddings (t : list event) : list padding :=
  match t with
  | [] => []
  | EvDecrypt _ pad _ :: t' => pad :: decrypt_paddings t'
  | _ :: t' => decrypt_paddings t'
  end.

(** The messages printed, in order. *)
Fixpoint printed (t : list event) : list string :=
  match t with
  | [] => []
  | EvPrintf msg :: t' => msg :: printed t'
  | _ :: t' => printed t'
  end.

Definition scan_iterations (t : list event) : nat :=
  List.length (decrypt_paddings t).

Definition is_file_read (path : string) (e : event) : bool :=
  match e with
  | EvFread p _ _ => String.eqb p path
  | _ => false
  end.

Definition is_fopen (path : string) (e : event) : bool :=
  match e with
  | EvFopen p true => String.eqb p path
  | _ => false
  end.

Definition is_fclose (path : string) (e : event) : bool :=
  match e with
  | EvFclose p => String.eqb p path
  | _ => false
  end.

Definition is_RSA_free (e : event) : bool :=
  match e with
  | EvRSA_free => true
  | _ => false
  end.

Definition is_key_loaded (e : event) : bool :=
  match e with
  | EvPEM_read true => true
  | _ => false
  end.

(** Any access to the file system: size query, open, seek, read, close. *)
Definition is_file_io (e : event) : bool :=
  match e with
  | EvFileSize _ | EvFopen _ _ | EvFclose _ | EvFseek _ _ | EvFread _ _ _ => true
  | _ => false
  end.

Definition count (p : event -> bool) (t : list event) : nat :=
  List.length (filter p t).

(** The process was terminated from within the computation. *)
Definition terminates_process {A : Type} (m : M A) : bool :=
  match result m with
  | Exit _ => true
  | _ => false
  end.

(** ** stdio *)

Record FILE : Type := mkFILE {
  fname : string;
  fdata : list byte;
  fpos : Z
}.

Definition filesystem : Type := string -> option (list byte).

(** [fopen(path, "r")]: [None] is the [NULL] result. *)
Definition fopen (fs : filesystem) (path : string) : M (option FILE) :=
  match fs path with
  | Some data => emit (EvFopen path true) ;; ret (Some (mkFILE path data 0))
  | None => emit (EvFopen path false) ;; ret None
  end.

Definition fclose (fp : FILE) : M unit := emit (EvFclose (fname fp)).

Definition ftell (fp : FILE) : Z := fpos fp.

(** [fseek(fp, offset, SEEK_SET)]; a negative offset is refused and
    leaves the position where it was.  The source ignores the result. *)
Definition fseek (fp : FILE) (offset : Z) : M FILE :=
  emit (EvFseek (fname fp) offset) ;;
  ret (if offset <? 0 then fp else mkFILE (fname fp) (fdata fp) offset).

(** The bytes [fread] can deliver from the current position. *)
Definition window (data : list byte) (pos n : Z) : list byte :=
  firstn (Z.to_nat n) (skipn (Z.to_nat pos) data).

(** [fread(buf, 1, nmemb, fp)]: the bytes read (their number is the
    return value) and the advanced stream. *)
Definition fread (fp : FILE) (nmemb : Z) : M (list byte * FILE) :=
  let got := window (fdata fp) (fpos fp) nmemb in
  emit (EvFread (fname fp) nmemb (strlen got)) ;;
  ret (got, mkFILE (fname fp) (fdata fp) (fpos fp + strlen got)).

(** ** error_handling.c *)

Definition printf (msg : string) : M unit := emit (EvPrintf msg).

(** [RSA_free]; freeing [NULL] does nothing. *)
Definition RSA_free (rsa : option RSA) : M unit :=
  match rsa with
  | Some _ => emit EvRSA_free
  | None => ret tt
  end.

Definition BIGNUM : Type := Z.

Definition BN_clear_free (e : option BIGNUM) : M unit :=
  match e with
  | Some _ => emit EvBN_clear_free
  | None => ret tt
  end.

(** [_handle_simple_error] never returns, so it fits any result type. *)
Definition _handle_simple_error {A : Type} (msg : string) : M A :=
  printf msg ;;
  exit 1.

Definition _handle_file_action_error (msg : string) (exit_on_handle : bool)
    (fp : option FILE) : M unit :=
  printf msg ;;
  match fp with
  | Some f => fclose f
  | None => ret tt
  end ;;
  if exit_on_handle then exit 1 else ret tt.

Definition _handle_RSA_error (msg : string) (exit_on_handle : bool)
    (rsa : option RSA) (e : option BIGNUM) : M unit :=
  printf msg ;;
  RSA_free rsa ;;
  BN_clear_free e ;;
  if exit_on_handle then exit 1 else ret tt.

(** ** utils.c

    [utils.c] is not part of the sources at hand; [decrypt_file] calls
    two of its helpers. *)

(** Modelled from the spec: [_ispowerof2] (utils.c) is missing; the spec
    only says that the block size "must be a power of two". *)
Definition _ispowerof2 (n : Z) : bool :=
  (0 <? n) && (2 ^ Z.log2 n =? n).

(** Modelled from the spec: [_get_file_size] (utils.c) is missing; it is
    handed the path and yields the size of the file, for which it has to
    consult the file system.  What it yields for a missing file is never
    looked at: the size only goes to [_find_selected_block], where
    [fopen] fails first. *)
Definition _get_file_size (fs : filesystem) (path : string) : M Z :=
  emit (EvFileSize path) ;;
  ret (match fs path with
       | Some data => to_size_t (Z.of_nat (List.length data))
       | None => 0
       end).

(** ** decrypt.c *)

(** The messages of [decrypt.c]. *)
Definition fast_flag_msg : string :=
  ("[ERROR] Could not read 'fast' flag from encrypted file header." ++ nl)%string.
Definition challenge_msg : string :=
  ("[ERROR] Could not read challenge from encrypted file header." ++ nl)%string.
Definition auth_msg : string :=
  ("[ERROR] Could not read auth from encrypted file header. Make sure the 'fast' flag is properly set." ++ nl)%string.
Definition not_found_msg : string :=
  ("[ERROR] RSA block could not be found." ++ nl)%string.
Definition open_failed_msg : string :=
  ("[ERROR] Could not open the encrypted file." ++ nl)%string.
Definition key_failed_msg : string :=
  ("[ERROR] Could not open private key file." ++ nl)%string.

Section Decrypt.

(** Constants of [czarrapo.h], [utils.h] and [error_handling.h], the
    hashing helper of [utils.c] and OpenSSL's PEM reader. *)
Variables _CHALLENGE_SIZE _BLOCK_HASH_SIZE _AUTH_SIZE ERR_MSG_BUF_SIZE : Z.
Variable _hash_individual_block : hash_alg -> list byte -> list byte.
Variable PEM_read_RSAPrivateKey : list byte -> list byte -> option RSA.

(** [RSA_new()]; running out of memory is not modelled. *)
Definition RSA_new : M (option RSA) :=
  emit EvRSA_new ;;
  ret (Some (mkRSA 0 (fun _ _ => None))).

Definition _read_private_key (fs : filesystem) (private_key_file : string)
    (passphrase : list byte) : M (option RSA) :=
  rsa <- RSA_new ;;
  match rsa with
  | None => ret None
  | Some _ =>
    pk <- fopen fs private_key_file ;;
    match pk with
    | None =>
      RSA_free rsa ;;
      ret None
    | Some pk =>
      let rsa := PEM_read_RSAPrivateKey (fdata pk) passphrase in
      emit (EvPEM_read (is_some rsa)) ;;
      match rsa with
      | None =>
        fclose pk ;;
        RSA_free rsa ;;
        ret None
      | Some _ =>
        fclose pk ;;
        ret rsa
      end
    end
  end.

(** The [bool] that [fread] stored: any non-zero byte is true. *)
Definition bool_of_bytes (b : list byte) : bool :=
  match b with
  | x :: _ => negb (Byte.eqb x x00)
  | [] => false
  end.

(** The out-parameters [fast] and [challenge] are returned, together
    with the advanced stream.  [sizeof(bool)] is 1. *)
Definition _read_basic_header (encrypted_file_handle : FILE) (rsa : RSA)
    : M (bool * list byte * FILE) :=
  '(fast, fp) <- fread encrypted_file_handle 1 ;;
  (if strlen fast <? 1 then
     _handle_RSA_error fast_flag_msg false (Some rsa) None ;;
     _handle_file_action_error EmptyString true (Some fp)
   else ret tt) ;;
  '(challenge, fp) <- fread fp _CHALLENGE_SIZE ;;
  (if strlen challenge <? _CHALLENGE_SIZE then
     _handle_RSA_error challenge_msg false (Some rsa) None ;;
     _handle_file_action_error EmptyString true (Some fp)
   else ret tt) ;;
  ret (bool_of_bytes fast, challenge, fp).

(** [RSA_private_decrypt(flen, from, to, rsa, padding)]. *)
Definition private_decrypt (rsa : RSA) (from : list byte) (pad : padding)
    : M (option (list byte)) :=
  let r := RSA_private_decrypt rsa from pad in
  emit (EvDecrypt from pad (is_some r)) ;;
  ret r.

(** The padding chosen at the head of [__find_block_slow]. *)
Definition determine_padding (block_size rsa_block_size : Z) : padding :=
  if block_size =? rsa_block_size then RSA_NO_PADDING
  else RSA_PKCS1_OAEP_PADDING.

(** The [for] loop of [__find_block_slow]; [fuel] bounds the number of
    times its condition is evaluated.  [decrypted_block] has room for
    [block_size + strlen(password)] bytes: [RSA_private_decrypt] stores
    the plaintext in it, [memcpy] appends the password. *)
Fixpoint __find_block_slow_loop (fuel : nat) (file_size block_size : Z)
    (rsa : RSA) (rsa_block_size : Z) (password challenge : list byte)
    (end_of_header : Z) (pad : padding) (i : Z) (fp : FILE) {struct fuel}
    : M Z :=
  match fuel with
  | O => out_of_fuel
  | S fuel' =>
    if i <? file_size then
      fp <- fseek fp (to_long (end_of_header + i)) ;;
      '(rsa_block, fp) <- fread fp rsa_block_size ;;
      decrypted <- private_decrypt rsa rsa_block pad ;;
      match decrypted with
      | None =>
        __find_block_slow_loop fuel' file_size block_size rsa rsa_block_size
          password challenge end_of_header pad (to_size_t (i + block_size)) fp
      | Some plain =>
        let capacity := block_size + strlen password in
        let decrypted_block_len := strlen plain in
        (if capacity <? decrypted_block_len
         then undefined BufferOverrun else ret tt) ;;
        (if capacity <? decrypted_block_len + strlen password
         then undefined BufferOverrun else ret tt) ;;
        let decrypted_block := plain ++ password in
        let block_hash := _hash_individual_block _BLOCK_HASH decrypted_block in
        let new_challenge :=
          _hash_individual_block _CHALLENGE_HASH
            (prefix _BLOCK_HASH_SIZE block_hash) in
        if memcmp_eq new_challenge challenge _CHALLENGE_SIZE then
          if block_size =? 0 then undefined DivisionByZero
          else ret (i / block_size)
        else
          __find_block_slow_loop fuel' file_size block_size rsa rsa_block_size
            password challenge end_of_header pad (to_size_t (i + block_size)) fp
      end
    else
      _handle_simple_error not_found_msg
  end.

Definition __find_block_slow (fuel : nat) (fp : FILE) (file_size block_size : Z)
    (rsa : RSA) (rsa_block_size : Z) (password challenge : list byte) : M Z :=
  let end_of_header := ftell fp in
  let pad := determine_padding block_size rsa_block_size in
  __find_block_slow_loop fuel file_size block_size rsa rsa_block_size
    password challenge end_of_header pad 0 fp.

Definition __find_block_fast (fp : FILE) (file_size block_size : Z)
    (rsa : RSA) (rsa_block_size : Z) (password challenge auth : list byte)
    : M Z :=
  ret 0.

Definition _find_selected_block (fuel : nat) (fs : filesystem)
    (encrypted_file : string) (encrypted_file_size block_size : Z)
    (rsa : RSA) (rsa_block_size : Z) (password : list byte) : M Z :=
  fp <- fopen fs encrypted_file ;;
  match fp with
  | None =>
    _handle_RSA_error open_failed_msg true (Some rsa) None ;;
    undefined NullPointer
  | Some fp =>
    '(fast, challenge, fp) <- _read_basic_header fp rsa ;;
    selected_block_index <-
      (if fast : bool then
         '(auth, fp) <- fread fp _AUTH_SIZE ;;
         (if strlen auth <? _AUTH_SIZE then
            _handle_RSA_error auth_msg false (Some rsa) None ;;
            _handle_file_action_error EmptyString true (Some fp)
          else ret tt) ;;
         __find_block_fast fp encrypted_file_size block_size rsa rsa_block_size
           password challenge auth
       else
         __find_block_slow fuel fp encrypted_file_size block_size rsa
           rsa_block_size password challenge) ;;
    fclose fp ;;
    ret selected_block_index
  end.

(** [snprintf(err_msg, ERR_MSG_BUF_SIZE, ...)] keeps at most
    [ERR_MSG_BUF_SIZE - 1] characters. *)
Definition block_size_err_msg (block_size : Z) : string :=
  substring 0 (Z.to_nat (ERR_MSG_BUF_SIZE - 1))
    ("[ERROR] block_size " ++ NilZero.string_of_int (Z.to_int (to_int block_size))
       ++ " must be a power of 2." ++ nl)%string.

(** [decrypt_file] is [void]; the value given back here is the final
    [selected_block_index], which the source hands to its debug print
    and leaves for the payload decryption still to be written. *)
Definition decrypt_file (fuel : nat) (fs : filesystem)
    (encrypted_file decrypted_file : string) (block_size : Z)
    (password : list byte) (private_key_file : string)
    (passphrase : list byte) (passed_block_index : Z) : M Z :=
  encrypted_file_size <- _get_file_size fs encrypted_file ;;
  (if negb (_ispowerof2 block_size) then
     _handle_simple_error (block_size_err_msg block_size)
   else ret tt) ;;
  rsa <- _read_private_key fs private_key_file passphrase ;;
  match rsa with
  | None =>
    _handle_simple_error key_failed_msg
  | Some key =>
    let rsa_block_size := RSA_size key in
    selected_block_index <-
      (if passed_block_index <? 0 then
         _find_selected_block fuel fs encrypted_file encrypted_file_size
           block_size key rsa_block_size password
       else ret (to_size_t passed_block_index)) ;;
    RSA_free rsa ;;
    ret selected_block_index
  end.

(** *** The acceptance test of the slow scan

    What the scan decides at byte offset [i] after the header, read
    off the file contents [data]: the window of up to
    [rsa_block_size] bytes found there is decrypted with the padding
    of the invocation; the candidate is accepted when the challenge
    hash of the block hash of plaintext and password equals the
    challenge of the header. *)
Definition candidate (data : list byte) (end_of_header block_size : Z)
    (rsa : RSA) (rsa_block_size i : Z) : option (list byte) :=
  RSA_private_decrypt rsa (window data (end_of_header + i) rsa_block_size)
    (determine_padding block_size rsa_block_size).

Definition accepts (data : list byte) (end_of_header block_size : Z)
    (rsa : RSA) (rsa_block_size : Z) (password challenge : list byte)
    (i : Z) : bool :=
  match candidate data end_of_header block_size rsa rsa_block_size i with
  | Some plain =>
    memcmp_eq
      (_hash_individual_block _CHALLENGE_HASH
         (prefix _BLOCK_HASH_SIZE
            (_hash_individual_block _BLOCK_HASH (plain ++ password))))
      challenge _CHALLENGE_SIZE
  | None => false
  end.

(** The plaintext found at offset [i], if any, is no longer than
    [block_size], so that it and the password stay within
    [decrypted_block]. *)
Definition fits (data : list byte) (end_of_header block_size : Z)
    (rsa : RSA) (rsa_block_size i : Z) : bool :=
  match candidate data end_of_header block_size rsa rsa_block_size i with
  | Some plain => strlen plain <=? block_size
  | None => true
  end.

(** The keyed check the TODO of [__find_block_fast] describes,
    [_AUTH_HASH(challenge + block_index + password)] compared with the
    stored auth tag, for an encoding [index_bytes] of the index.  The
    source never computes it. *)
Definition auth_matches (index_bytes : Z -> list byte)
    (challenge : list byte) (index : Z) (password auth : list byte) : bool :=
  memcmp_eq
    (_hash_individual_block _AUTH_HASH (challenge ++ index_bytes index ++ password))
    auth _AUTH_SIZE.

End Decrypt.

(** ** A toy instance

    Stand-ins for the OpenSSL primitives, small enough to run the code
    on concrete files.  An OAEP ciphertext of the toy key is a full
    modulus-wide window that starts with byte 02 followed by the length
    of the plaintext and the plaintext itself; without padding the
    plaintext is the window reversed. *)

Definition toy_decrypt (size : Z) (from : list byte) (pad : padding)
    : option (list byte) :=
  if strlen from =? size then
    match pad with
    | RSA_NO_PADDING => Some (rev from)
    | RSA_PKCS1_OAEP_PADDING =>
      match from with
      | x02 :: len :: rest => Some (firstn (Byte.to_nat len) rest)
      | _ => None
      end
    end
  else None.

Definition toy_rsa (size : Z) : RSA := mkRSA size (toy_decrypt size).

(** The block hash pads or cuts its input to 32 bytes, the challenge
    hash reverses its input, the auth hash is constant. *)
Definition toy_hash (alg : hash_alg) (input : list byte) : list byte :=
  match alg with
  | _BLOCK_HASH => firstn 32 (input ++ repeat x00 32)
  | _CHALLENGE_HASH => rev input
  | _AUTH_HASH => repeat x00 32
  end.

(** A key file holds one byte, the modulus size, and opens with any
    passphrase. *)
Definition toy_PEM_read (data passphrase : list byte) : option RSA :=
  match data with
  | [size] => Some (toy_rsa (Z.of_nat (Byte.to_nat size)))
  | _ => None
  end.

Definition toy_find_block_slow :=
  __find_block_slow 32 32 toy_hash.

Definition toy_find_selected_block :=
  _find_selected_block 32 32 32 toy_hash.

Definition toy_decrypt_file :=
  decrypt_file 32 32 32 128 toy_hash toy_PEM_read.

(** The password "pw" and the plaintext "key". *)
Definition pw : list byte := [x70; x77].
Definition key_plain : list byte := [x6b; x65; x79].

(** An OAEP block of the 32-byte toy key that decrypts to "key". *)
Definition key_block : list byte :=
  [x02; x03] ++ key_plain ++ repeat x00 27.

(** Challenge-hash of the block-hash of "keypw". *)
Definition key_challenge : list byte :=
  repeat x00 27 ++ [x77; x70; x79; x65; x6b].

(** 64 bytes of block data with the key block at byte offset 16. *)
Definition block_data : list byte :=
  repeat x00 16 ++ key_block ++ repeat x00 16.

(** A slow-mode file: mode byte, challenge, block data. *)
Definition slow_file : list byte := [x00] ++ key_challenge ++ block_data.

(** The same file with the last byte of its challenge changed. *)
Definition wrong_challenge : list byte :=
  repeat x00 27 ++ [x77; x70; x79; x65; xff].

Definition wrong_challenge_file : list byte :=
  [x00] ++ wrong_challenge ++ block_data.

(** A slow-mode file for a 128-byte (1024-bit) toy key: its first
    window is a well-formed OAEP block whose plaintext is 64 bytes long,
    within the [RSA_size - 42] bytes OAEP allows for that key. *)
Definition long_plain_block : list byte :=
  [x02; x40] ++ repeat x41 64 ++ repeat x00 62.

Definition long_plain_file : list byte :=
  [x00] ++ key_challenge ++ long_plain_block.

(** A fast-mode file: mode byte, challenge, an auth tag of 32 bytes 01,
    block data. *)
Definition fast_file : list byte :=
  [x01] ++ key_challenge ++ repeat x01 32 ++ block_data.

Definition toy_fs (enc : list byte) (modulus : byte) : filesystem :=
  fun path =>
    if String.eqb path "enc" then Some enc
    else if String.eqb path "key.pem" then Some [modulus]
    else None.

(** *** More ways to read a trace *)

(** The events the scan loop itself gives rise to: seeks, reads,
    decryptions and, at its end, a message. *)
Definition is_scan_event (e : event) : bool :=
  match e with
  | EvFseek _ _ | EvFread _ _ _ | EvDecrypt _ _ _ | EvPrintf _ => true
  | _ => false
  end.

(** Events other than decryptions. *)
Definition is_not_decrypt (e : event) : bool :=
  match e with
  | EvDecrypt _ _ _ => false
  | _ => true
  end.

Definition is_undefined {A : Type} (m : M A) : bool :=
  match result m with
  | Undefined _ => true
  | _ => false
  end.

Definition is_out_of_fuel {A : Type} (m : M A) : bool :=
  match result m with
  | OutOfFuel => true
  | _ => false
  end.

Definition returns {A : Type} (m : M A) : bool :=
  match result m with
  | Ret _ => true
  | _ => false
  end.

(** * Properties *)

(** ** Integer conversions and buffers *)

Lemma to_long_small (x : Z) :
  0 <= x < LONG_MAX_plus_1 -> to_long x = x.
Proof.
  intros Hx. unfold to_long, LONG_MAX_plus_1, SIZE_MAX_plus_1 in *.
  rewrite Z.mod_small by lia.
  destruct (x <? 2 ^ 63) eqn:E; [reflexivity | apply Z.ltb_ge in E; lia].
Qed.

Lemma to_size_t_small (x : Z) :
  0 <= x < SIZE_MAX_plus_1 -> to_size_t x = x.
Proof.
  intros Hx. unfold to_size_t. now apply Z.mod_small.
Qed.

Lemma strlen_nonneg (l : list byte) : 0 <= strlen l.
Proof. unfold strlen. lia. Qed.

Lemma strlen_window (data : list byte) (pos n : Z) :
  0 <= pos -> 0 <= n ->
  strlen (window data pos n) = Z.max 0 (Z.min n (strlen data - pos)).
Proof.
  intros Hp Hn. unfold strlen, window.
  rewrite length_firstn, length_skipn. lia.
Qed.

Lemma bytes_eqb_refl (a : list byte) : bytes_eqb a a = true.
Proof.
  induction a as [|x a IH]; simpl; [reflexivity|].
  rewrite IH, (Byte.byte_dec_lb (x:=x) (y:=x) eq_refl). reflexivity.
Qed.

Lemma bytes_eqb_eq (a b : list byte) : bytes_eqb a b = true <-> a = b.
Proof.
  split.
  - revert b. induction a as [|x a IH]; intros [|y b] H; simpl in H;
      try discriminate; [reflexivity|].
    apply andb_true_iff in H. destruct H as [Hxy Hab].
    apply Byte.byte_dec_bl in Hxy. apply IH in Hab. congruence.
  - intros ->. apply bytes_eqb_refl.
Qed.

(** ** The monad *)

Lemma bind_emit {B : Type} (e : event) (f : unit -> M B) :
  bind (emit e) f = prepend [e] (f tt).
Proof. unfold bind, emit, prepend. destruct (f tt). reflexivity. Qed.

Lemma bind_ret {A B : Type} (a : A) (f : A -> M B) :
  bind (ret a) f = f a.
Proof. unfold bind, ret. destruct (f a). reflexivity. Qed.

Lemma bind_prepend {A B : Type} (evs : list event) (m : M A) (f : A -> M B) :
  bind (prepend evs m) f = prepend evs (bind m f).
Proof.
  destruct m as [t [a|s|u|]]; unfold bind, prepend; cbn [fst snd];
    [destruct (f a); cbn [fst snd]; now rewrite app_assoc | | |]; reflexivity.
Qed.

Lemma bind_value {A B : Type} (t : list event) (a : A) (f : A -> M B) :
  bind (t, Ret a) f = prepend t (f a).
Proof. unfold bind, prepend. destruct (f a). reflexivity. Qed.

(** Runs the binds at the head of a computation. *)
Ltac mstep :=
  repeat (rewrite ?bind_emit, ?bind_prepend, ?bind_ret; cbv beta iota;
          cbn [fname fdata fpos]).

Lemma prepend_prepend {A : Type} (e1 e2 : list event) (m : M A) :
  prepend e1 (prepend e2 m) = prepend (e1 ++ e2) m.
Proof. unfold prepend. simpl. now rewrite app_assoc. Qed.

(** ** One turn of the scan loop *)

Section Scan.

Variables _CHALLENGE_SIZE _BLOCK_HASH_SIZE : Z.
Variable _hash_individual_block : hash_alg -> list byte -> list byte.

Local Abbreviation loop :=
  (__find_block_slow_loop _CHALLENGE_SIZE _BLOCK_HASH_SIZE _hash_individual_block).

Variables (file_size block_size : Z) (rsa : RSA) (rsa_block_size : Z).
Variables (password challenge : list byte) (end_of_header : Z) (pad : padding).

Lemma loop_step (fuel : nat) (i : Z) (fp : FILE) :
  loop (S fuel) file_size block_size rsa rsa_block_size password challenge
    end_of_header pad i fp =
  if i <? file_size then
    let off := to_long (end_of_header + i) in
    let fp1 := if off <? 0 then fp else mkFILE (fname fp) (fdata fp) off in
    let w := window (fdata fp) (fpos fp1) rsa_block_size in
    let fp2 := mkFILE (fname fp) (fdata fp) (fpos fp1 + strlen w) in
    let evs := [EvFseek (fname fp) off; EvFread (fname fp) rsa_block_size (strlen w);
                EvDecrypt w pad (is_some (RSA_private_decrypt rsa w pad))] in
    let next := prepend evs
      (loop fuel file_size block_size rsa rsa_block_size password challenge
         end_of_header pad (to_size_t (i + block_size)) fp2) in
    match RSA_private_decrypt rsa w pad with
    | None => next
    | Some plain =>
      if block_size <? strlen plain then (evs, Undefined BufferOverrun)
      else if memcmp_eq
                (_hash_individual_block _CHALLENGE_HASH
                   (prefix _BLOCK_HASH_SIZE
                      (_hash_individual_block _BLOCK_HASH (plain ++ password))))
                challenge _CHALLENGE_SIZE
      then if block_size =? 0 then (evs, Undefined DivisionByZero)
           else (evs, Ret (i / block_size))
      else next
    end
  else ([EvPrintf not_found_msg], Exit 1).
Proof.
  cbn [__find_block_slow_loop].
  destruct (i <? file_size); [|reflexivity].
  cbv zeta.
  set (off := to_long (end_of_header + i)).
  set (fp1 := if off <? 0 then fp else mkFILE (fname fp) (fdata fp) off).
  assert (Hname : fname fp1 = fname fp) by (unfold fp1; destruct (off <? 0); reflexivity).
  assert (Hdata : fdata fp1 = fdata fp) by (unfold fp1; destruct (off <? 0); reflexivity).
  unfold fseek, fread, private_decrypt. fold off. fold fp1.
  unfold bind at 1 2. unfold emit at 1. unfold ret at 1. cbn [app].
  unfold bind at 1 2. unfold emit at 1. unfold ret at 1. cbn [app].
  rewrite Hname, Hdata.
  unfold bind at 1 2. unfold emit at 1. unfold ret at 1. cbn [app].
  set (w := window (fdata fp) (fpos fp1) rsa_block_size).
  generalize (loop fuel file_size block_size rsa rsa_block_size password
                challenge end_of_header pad (to_size_t (i + block_size))
                (mkFILE (fname fp) (fdata fp) (fpos fp1 + strlen w))).
  intros [t o].
  pose proof (strlen_nonneg password) as Hpw.
  destruct (RSA_private_decrypt rsa w pad) as [plain|]; [|reflexivity].
  destruct (block_size <? strlen plain) eqn:Elen.
  - apply Z.ltb_lt in Elen.
    destruct (block_size + strlen password <? strlen plain); [reflexivity|].
    replace (block_size + strlen password <? strlen plain + strlen password)
      with true by (symmetry; apply Z.ltb_lt; lia).
    reflexivity.
  - apply Z.ltb_ge in Elen.
    replace (block_size + strlen password <? strlen plain)
      with false by (symmetry; apply Z.ltb_ge; lia).
    replace (block_size + strlen password <? strlen plain + strlen password)
      with false by (symmetry; apply Z.ltb_ge; lia).
    destruct (memcmp_eq _ _ _); [|reflexivity].
    destruct (block_size =? 0); reflexivity.
Qed.

(** Every candidate of one scan is decrypted with the padding the
    loop was entered with. *)
Lemma loop_paddings (fuel : nat) :
  forall (i : Z) (fp : FILE),
    Forall (eq pad)
      (decrypt_paddings
         (trace (loop fuel file_size block_size rsa rsa_block_size password
                   challenge end_of_header pad i fp))).
Proof.
  induction fuel as [|fuel IH]; intros i fp.
  - constructor.
  - rewrite loop_step. destruct (i <? file_size).
    2:{ cbn. constructor. }
    cbv zeta.
    match goal with
    | |- context [prepend ?evs (loop fuel ?a ?b ?c ?d ?e ?f ?g ?h ?j ?fp2)] =>
      pose proof (IH j fp2) as Hrec;
      destruct (loop fuel a b c d e f g h j fp2) as [t' o']
    end.
    unfold trace in *. cbn [fst] in Hrec.
    destruct (RSA_private_decrypt rsa _ pad) as [plain|];
      [destruct (block_size <? strlen plain);
       [|destruct (memcmp_eq _ _ _); [destruct (block_size =? 0)|]]|];
      cbn; constructor; auto.
Qed.

(** *** The scan returns the first accepted offset *)

Local Abbreviation accepts_at data :=
  (accepts _CHALLENGE_SIZE _BLOCK_HASH_SIZE _hash_individual_block data
     end_of_header block_size rsa rsa_block_size password challenge).

Local Abbreviation tried_offsets := (scan_offsets end_of_header block_size).

Lemma tried_offsets_cons (k : Z) (n : nat) :
  0 <= k ->
  tried_offsets k (S n) = (end_of_header + k * block_size) :: tried_offsets (k + 1) n.
Proof.
  intros Hk. unfold scan_offsets. cbn [seq map].
  rewrite Z2Nat.id by lia.
  replace (Z.to_nat (k + 1)) with (S (Z.to_nat k)) by lia.
  reflexivity.
Qed.

Hypothesis block_size_pos : 0 < block_size.
Hypothesis no_wrap : file_size + block_size <= SIZE_MAX_plus_1.
Hypothesis header_pos : 0 <= end_of_header.
Hypothesis seekable : end_of_header + file_size <= LONG_MAX_plus_1.

(** Inside the file the loop reads the window that starts [i] bytes
    after the header, wherever the stream stood before. *)
Lemma loop_step_in_range (fuel : nat) (k : Z) (fp : FILE) :
  0 <= k -> k * block_size < file_size ->
  loop (S fuel) file_size block_size rsa rsa_block_size password challenge
    end_of_header pad (k * block_size) fp =
  let w := window (fdata fp) (end_of_header + k * block_size) rsa_block_size in
  let evs := [EvFseek (fname fp) (end_of_header + k * block_size);
              EvFread (fname fp) rsa_block_size (strlen w);
              EvDecrypt w pad (is_some (RSA_private_decrypt rsa w pad))] in
  let next := prepend evs
    (loop fuel file_size block_size rsa rsa_block_size password challenge
       end_of_header pad ((k + 1) * block_size)
       (mkFILE (fname fp) (fdata fp)
          (end_of_header + k * block_size + strlen w))) in
  match RSA_private_decrypt rsa w pad with
  | None => next
  | Some plain =>
    if block_size <? strlen plain then (evs, Undefined BufferOverrun)
    else if memcmp_eq
              (_hash_individual_block _CHALLENGE_HASH
                 (prefix _BLOCK_HASH_SIZE
                    (_hash_individual_block _BLOCK_HASH (plain ++ password))))
              challenge _CHALLENGE_SIZE
    then (evs, Ret k)
    else next
  end.
Proof.
  intros Hk Hlt. rewrite loop_step.
  replace (k * block_size <? file_size) with true by (symmetry; apply Z.ltb_lt; lia).
  assert (0 <= k * block_size) by nia.
  cbv zeta.
  rewrite to_long_small by lia.
  replace (end_of_header + k * block_size <? 0) with false
    by (symmetry; apply Z.ltb_ge; lia).
  rewrite to_size_t_small by lia.
  replace (k * block_size + block_size) with ((k + 1) * block_size) by lia.
  replace (block_size =? 0) with false by (symmetry; apply Z.eqb_neq; lia).
  rewrite Z.div_mul by lia.
  reflexivity.
Qed.

Lemma loop_sound (fuel : nat) :
  pad = determine_padding block_size rsa_block_size ->
  forall (k : Z) (fp : FILE) (t : list event) (idx : Z),
    0 <= k ->
    loop fuel file_size block_size rsa rsa_block_size password challenge
      end_of_header pad (k * block_size) fp = (t, Ret idx) ->
    k <= idx /\
    idx * block_size < file_size /\
    accepts_at (fdata fp) (idx * block_size) = true /\
    (forall j, k <= j < idx -> accepts_at (fdata fp) (j * block_size) = false) /\
    seeks t = tried_offsets k (S (Z.to_nat (idx - k))).
Proof.
  intros Hpad. induction fuel as [|fuel IH]; intros k fp t idx Hk Hrun.
  - discriminate Hrun.
  - destruct (k * block_size <? file_size) eqn:Hin.
    2:{ rewrite loop_step, Hin in Hrun. discriminate Hrun. }
    apply Z.ltb_lt in Hin.
    rewrite loop_step_in_range in Hrun by assumption. cbv zeta in Hrun.
    set (w := window (fdata fp) (end_of_header + k * block_size) rsa_block_size) in *.
    assert (Hnext : forall plain_ok : accepts_at (fdata fp) (k * block_size) = false,
      prepend
        [EvFseek (fname fp) (end_of_header + k * block_size);
         EvFread (fname fp) rsa_block_size (strlen w);
         EvDecrypt w pad (is_some (RSA_private_decrypt rsa w pad))]
        (loop fuel file_size block_size rsa rsa_block_size password challenge
           end_of_header pad ((k + 1) * block_size)
           (mkFILE (fname fp) (fdata fp)
              (end_of_header + k * block_size + strlen w))) = (t, Ret idx) ->
      k <= idx /\
      idx * block_size < file_size /\
      accepts_at (fdata fp) (idx * block_size) = true /\
      (forall j, k <= j < idx -> accepts_at (fdata fp) (j * block_size) = false) /\
      seeks t = tried_offsets k (S (Z.to_nat (idx - k)))).
    { intros Hrej Hnext.
      destruct (loop fuel file_size block_size rsa rsa_block_size password
                  challenge end_of_header pad ((k + 1) * block_size) _)
        as [t' o'] eqn:Hrec.
      unfold prepend in Hnext. cbn [fst snd] in Hnext.
      injection Hnext as Ht Ho. subst o' t.
      apply IH in Hrec; [|lia]. cbn [fdata] in Hrec.
      destruct Hrec as (Hle & Hlt & Hacc & Hmin & Hseek).
      repeat split; try assumption; try lia.
      - intros j Hj. destruct (Z.eq_dec j k) as [->|Hne]; [assumption|].
        apply Hmin. lia.
      - replace (Z.to_nat (idx - k)) with (S (Z.to_nat (idx - (k + 1)))) by lia.
        rewrite tried_offsets_cons by lia.
        cbn [app seeks]. now rewrite Hseek. }
    assert (Hacc : accepts_at (fdata fp) (k * block_size) =
      match RSA_private_decrypt rsa w pad with
      | Some plain =>
        memcmp_eq
          (_hash_individual_block _CHALLENGE_HASH
             (prefix _BLOCK_HASH_SIZE
                (_hash_individual_block _BLOCK_HASH (plain ++ password))))
          challenge _CHALLENGE_SIZE
      | None => false
      end).
    { unfold accepts, candidate. fold w. rewrite <- Hpad. reflexivity. }
    destruct (RSA_private_decrypt rsa w pad) as [plain|].
    + destruct (block_size <? strlen plain); [discriminate Hrun|].
      destruct (memcmp_eq _ _ _) eqn:Hcmp.
      * injection Hrun as Ht Hidx. subst t idx.
        repeat split; try assumption; try lia.
        replace (k - k) with 0 by lia. cbn [Z.to_nat].
        rewrite tried_offsets_cons by lia. reflexivity.
      * now apply Hnext.
    + now apply Hnext.
Qed.

(** *** The scan reaches the first accepted offset *)

Lemma loop_finds (fuel : nat) :
  pad = determine_padding block_size rsa_block_size ->
  forall (k : Z) (fp : FILE) (idx : Z),
    0 <= k <= idx ->
    idx - k < Z.of_nat fuel ->
    idx * block_size < file_size ->
    accepts_at (fdata fp) (idx * block_size) = true ->
    fits (fdata fp) end_of_header block_size rsa rsa_block_size
      (idx * block_size) = true ->
    (forall j, k <= j < idx ->
       accepts_at (fdata fp) (j * block_size) = false /\
       fits (fdata fp) end_of_header block_size rsa rsa_block_size
         (j * block_size) = true) ->
    exists t,
      loop fuel file_size block_size rsa rsa_block_size password challenge
        end_of_header pad (k * block_size) fp = (t, Ret idx).
Proof.
  intros Hpad. induction fuel as [|fuel IH];
    intros k fp idx Hk Hfuel Hlt Hacc Hfit Hrej; [lia|].
  assert (Hin : k * block_size < file_size) by nia.
  rewrite loop_step_in_range by (assumption || lia). cbv zeta.
  set (w := window (fdata fp) (end_of_header + k * block_size) rsa_block_size) in *.
  destruct (Z.eq_dec k idx) as [-> | Hne].
  - unfold accepts, fits, candidate in Hacc, Hfit.
    rewrite <- Hpad in Hacc, Hfit. fold w in Hacc, Hfit.
    destruct (RSA_private_decrypt rsa w pad) as [plain|]; [|discriminate Hacc].
    apply Z.leb_le in Hfit.
    replace (block_size <? strlen plain) with false
      by (symmetry; apply Z.ltb_ge; lia).
    rewrite Hacc. eexists. reflexivity.
  - destruct (Hrej k ltac:(lia)) as [Hacck Hfitk].
    unfold accepts, fits, candidate in Hacck, Hfitk.
    rewrite <- Hpad in Hacck, Hfitk. fold w in Hacck, Hfitk.
    destruct (IH (k + 1)
                (mkFILE (fname fp) (fdata fp)
                   (end_of_header + k * block_size + strlen w)) idx)
      as [t' Ht']; try assumption; try lia.
    { cbn [fdata]. intros j Hj. apply Hrej. lia. }
    rewrite Ht'.
    destruct (RSA_private_decrypt rsa w pad) as [plain|].
    + apply Z.leb_le in Hfitk.
      replace (block_size <? strlen plain) with false
        by (symmetry; apply Z.ltb_ge; lia).
      rewrite Hacck. eexists. reflexivity.
    + eexists. reflexivity.
Qed.

(** *** The scan that finds nothing *)

Lemma loop_exhausts (fuel : nat) :
  pad = determine_padding block_size rsa_block_size ->
  forall (k : Z) (fp : FILE),
    0 <= k ->
    file_size <= (k + Z.of_nat fuel) * block_size ->
    (forall j, k <= j -> j * block_size < file_size ->
       accepts_at (fdata fp) (j * block_size) = false /\
       fits (fdata fp) end_of_header block_size rsa rsa_block_size
         (j * block_size) = true) ->
    exists t0,
      loop (S fuel) file_size block_size rsa rsa_block_size password challenge
        end_of_header pad (k * block_size) fp
      = (t0 ++ [EvPrintf not_found_msg], Exit 1).
Proof.
  intros Hpad. induction fuel as [|fuel IH]; intros k fp Hk Hfuel Hrej.
  - exists []. rewrite loop_step.
    replace (k * block_size <? file_size) with false
      by (symmetry; apply Z.ltb_ge; lia).
    reflexivity.
  - destruct (k * block_size <? file_size) eqn:Hin.
    2:{ exists []. rewrite loop_step, Hin. reflexivity. }
    apply Z.ltb_lt in Hin.
    rewrite loop_step_in_range by assumption. cbv zeta.
    destruct (Hrej k ltac:(lia) Hin) as [Hacc Hfit].
    unfold accepts, fits, candidate in Hacc, Hfit. rewrite <- Hpad in Hacc, Hfit.
    set (w := window (fdata fp) (end_of_header + k * block_size) rsa_block_size) in *.
    destruct (IH (k + 1)
                (mkFILE (fname fp) (fdata fp)
                   (end_of_header + k * block_size + strlen w)))
      as [t0 Ht0]; [lia | lia | |].
    { cbn [fdata]. intros j Hj Hlt. apply Hrej; [lia | assumption]. }
    rewrite Ht0.
    exists ([EvFseek (fname fp) (end_of_header + k * block_size);
             EvFread (fname fp) rsa_block_size (strlen w);
             EvDecrypt w pad (is_some (RSA_private_decrypt rsa w pad))] ++ t0).
    destruct (RSA_private_decrypt rsa w pad) as [plain|]; [|reflexivity].
    apply Z.leb_le in Hfit.
    replace (block_size <? strlen plain) with false
      by (symmetry; apply Z.ltb_ge; lia).
    rewrite Hacc. reflexivity.
Qed.

End Scan.

Lemma scan_offsets_increasing (end_of_header block_size first : Z) (n : nat) :
  0 < block_size ->
  StronglySorted Z.lt (scan_offsets end_of_header block_size first n).
Proof.
  intros Hbs. unfold scan_offsets. generalize (Z.to_nat first) as a.
  induction n as [|n IH]; intros a; cbn [seq map]; constructor.
  - apply IH.
  - apply Forall_forall. intros x Hx. apply in_map_iff in Hx.
    destruct Hx as (m & <- & Hm). apply in_seq in Hm. nia.
Qed.


(** ** The slow scan *)

Section SlowScan.

Variables _CHALLENGE_SIZE _BLOCK_HASH_SIZE : Z.
Variable _hash_individual_block : hash_alg -> list byte -> list byte.

Local Abbreviation find_block_slow :=
  (__find_block_slow _CHALLENGE_SIZE _BLOCK_HASH_SIZE _hash_individual_block).
Local Abbreviation accepts_in :=
  (accepts _CHALLENGE_SIZE _BLOCK_HASH_SIZE _hash_individual_block).

(** C1: when [__find_block_slow] returns an index [idx], then
    [idx = i / block_size] for the offset [i = idx * block_size], a
    multiple of [block_size] with [0 <= i < file_size], whose window
    decrypts and reproduces the header challenge; no smaller multiple
    of [block_size] passes that test; and the offsets the scan seeks
    are [0], [block_size], ..., [i] after the header, in strictly
    increasing order.  The scan does return that index, given fuel for
    its turns, when the offset is accepted and the plaintexts met up to
    it fit the buffer. *)
Theorem find_block_slow_first_match :
  forall (fuel : nat) (fp : FILE) (file_size block_size : Z) (rsa : RSA)
         (rsa_block_size : Z) (password challenge : list byte),
    0 < block_size ->
    file_size + block_size <= SIZE_MAX_plus_1 ->
    0 <= ftell fp ->
    ftell fp + file_size <= LONG_MAX_plus_1 ->
    let run :=
      find_block_slow fuel fp file_size block_size rsa rsa_block_size
        password challenge in
    let accepted :=
      accepts_in (fdata fp) (ftell fp) block_size rsa rsa_block_size
        password challenge in
    let fitting :=
      fits (fdata fp) (ftell fp) block_size rsa rsa_block_size in
    (forall (t : list event) (idx : Z),
       run = (t, Ret idx) ->
       let i := idx * block_size in
       idx = i / block_size /\
       0 <= i < file_size /\
       i mod block_size = 0 /\
       accepted i = true /\
       (forall i', 0 <= i' < i -> i' mod block_size = 0 -> accepted i' = false) /\
       seeks t = scan_offsets (ftell fp) block_size 0 (S (Z.to_nat idx)) /\
       StronglySorted Z.lt (seeks t)) /\
    (forall i : Z,
       0 <= i < file_size ->
       i mod block_size = 0 ->
       i / block_size < Z.of_nat fuel ->
       accepted i = true ->
       fitting i = true ->
       (forall i', 0 <= i' < i -> i' mod block_size = 0 ->
          accepted i' = false /\ fitting i' = true) ->
       exists t, run = (t, Ret (i / block_size))).
Proof.
  intros fuel fp file_size block_size rsa rsa_block_size password challenge
    Hbs Hwrap Hpos Hseek run accepted fitting.
  subst run accepted fitting. split.
  - intros t idx Hrun i.
    unfold __find_block_slow in Hrun.
    change 0 with (0 * block_size) in Hrun at 1.
    apply loop_sound in Hrun; try assumption; try reflexivity; try lia.
    destruct Hrun as (Hle & Hlt & Hacc & Hmin & Hseeks).
    rewrite Z.sub_0_r in Hseeks.
    subst i. repeat split.
    + now rewrite Z.div_mul by lia.
    + nia.
    + assumption.
    + now apply Z.mod_mul; lia.
    + exact Hacc.
    + intros i' Hi' Hmod.
      rewrite (Z.div_mod i' block_size) by lia.
      rewrite Hmod, Z.add_0_r, Z.mul_comm.
      apply Hmin. split.
      * apply Z.div_pos; lia.
      * apply Z.div_lt_upper_bound; lia.
    + exact Hseeks.
    + rewrite Hseeks. now apply scan_offsets_increasing.
  - intros i Hi Hmod Hfuel Hacc Hfit Hrej.
    assert (Hi_eq : i = i / block_size * block_size).
    { rewrite (Z.div_mod i block_size) at 1 by lia. rewrite Hmod. lia. }
    assert (Hidx : 0 <= i / block_size) by (apply Z.div_pos; lia).
    unfold __find_block_slow.
    change 0 with (0 * block_size) at 1.
    apply loop_finds; try assumption; try reflexivity; try lia.
    + now rewrite <- Hi_eq.
    + now rewrite <- Hi_eq.
    + intros j Hj. apply Hrej.
      * nia.
      * apply Z.mod_mul. lia.
Qed.

(** C2, as the code has it: when no offset of the scan is accepted
    (and every plaintext met on the way fits the buffer), the scan,
    given fuel for all its turns, ends in [_handle_simple_error]: the
    message is printed and the process exits with status 1; nothing is
    returned to the caller. *)
Theorem find_block_slow_not_found_exits :
  forall (fuel : nat) (fp : FILE) (file_size block_size : Z) (rsa : RSA)
         (rsa_block_size : Z) (password challenge : list byte),
    0 < block_size ->
    0 <= file_size ->
    file_size + block_size <= SIZE_MAX_plus_1 ->
    0 <= ftell fp ->
    ftell fp + file_size <= LONG_MAX_plus_1 ->
    file_size / block_size + 1 < Z.of_nat fuel ->
    (forall i, 0 <= i < file_size -> i mod block_size = 0 ->
       accepts_in (fdata fp) (ftell fp) block_size rsa rsa_block_size
         password challenge i = false /\
       fits (fdata fp) (ftell fp) block_size rsa rsa_block_size i = true) ->
    exists t0,
      find_block_slow fuel fp file_size block_size rsa rsa_block_size
        password challenge = (t0 ++ [EvPrintf not_found_msg], Exit 1).
Proof.
  intros fuel fp file_size block_size rsa rsa_block_size password challenge
    Hbs Hsize Hwrap Hpos Hseek Hfuel Hrej.
  pose proof (Z.div_pos file_size block_size Hsize Hbs) as Hdiv.
  destruct fuel as [|fuel]; [lia|].
  unfold __find_block_slow.
  change 0 with (0 * block_size) at 1.
  apply loop_exhausts; try assumption; try reflexivity; try lia.
  - pose proof (Z.div_mod file_size block_size ltac:(lia)) as Hdm.
    pose proof (Z.mod_pos_bound file_size block_size Hbs) as Hmod.
    nia.
  - intros j Hj Hlt. apply Hrej.
    + nia.
    + apply Z.mod_mul. lia.
Qed.

(** C6: every decryption attempt of one [__find_block_slow] call is
    made with the same padding, fixed by the two sizes alone: no
    padding when [block_size] equals [rsa_block_size], OAEP padding
    otherwise. *)
Theorem find_block_slow_one_padding :
  forall (fuel : nat) (fp : FILE) (file_size block_size : Z) (rsa : RSA)
         (rsa_block_size : Z) (password challenge : list byte),
    Forall
      (eq (if block_size =? rsa_block_size then RSA_NO_PADDING
           else RSA_PKCS1_OAEP_PADDING))
      (decrypt_paddings
         (trace (find_block_slow fuel fp file_size block_size rsa
                   rsa_block_size password challenge))).
Proof.
  intros. unfold __find_block_slow. apply loop_paddings.
Qed.


End SlowScan.

(** The scenario of the spec: block size 16, a 32-byte key, 64 bytes of
    block data after a 33-byte header, the key block at offset 16. *)
Lemma find_block_slow_first_match_witness :
  let fp := mkFILE "enc" slow_file 33 in
  let run := toy_find_block_slow 10 fp 64 16 (toy_rsa 32) 32 pw key_challenge in
  let accepted :=
    accepts 32 32 toy_hash slow_file 33 16 (toy_rsa 32) 32 pw key_challenge in
  (1 = 16 / 16 /\
   0 <= 16 < 64 /\
   16 mod 16 = 0 /\
   accepted 16 = true /\
   (forall i', 0 <= i' < 16 -> i' mod 16 = 0 -> accepted i' = false) /\
   seeks (trace run) = [33; 49] /\
   StronglySorted Z.lt (seeks (trace run))) /\
  (exists t, run = (t, Ret 1)).
Proof.
  pose proof (find_block_slow_first_match 32 32 toy_hash 10
                (mkFILE "enc" slow_file 33) 64 16 (toy_rsa 32) 32 pw
                key_challenge) as H.
  cbv zeta in H.
  destruct H as [Hsound Hfinds].
  - lia.
  - unfold SIZE_MAX_plus_1. lia.
  - simpl. lia.
  - unfold LONG_MAX_plus_1. simpl. lia.
  - split.
    + apply (Hsound _ 1). vm_compute. reflexivity.
    + apply (Hfinds 16).
      * lia.
      * reflexivity.
      * vm_compute. reflexivity.
      * vm_compute. reflexivity.
      * vm_compute. reflexivity.
      * intros i' Hi' Hmod.
        assert (Hzero : i' = 0).
        { apply Z.mod_divide in Hmod; [|lia]. destruct Hmod as [q ->]. lia. }
        subst i'. vm_compute. split; reflexivity.
Defined.

Lemma find_block_slow_not_found_exits_witness :
  exists t0,
    toy_find_block_slow 10 (mkFILE "enc" wrong_challenge_file 33) 64 16
      (toy_rsa 32) 32 pw wrong_challenge
    = (t0 ++ [EvPrintf not_found_msg], Exit 1).
Proof.
  apply (find_block_slow_not_found_exits 32 32 toy_hash 10
           (mkFILE "enc" wrong_challenge_file 33) 64 16 (toy_rsa 32) 32 pw
           wrong_challenge).
  - lia.
  - lia.
  - unfold SIZE_MAX_plus_1. lia.
  - simpl. lia.
  - unfold LONG_MAX_plus_1. simpl. lia.
  - vm_compute. reflexivity.
  - intros i Hi Hmod.
    assert (Hcases : i = 0 \/ i = 16 \/ i = 32 \/ i = 48).
    { apply Z.mod_divide in Hmod; [|lia]. destruct Hmod as [q ->]. lia. }
    destruct Hcases as [-> | [-> | [-> | ->]]]; vm_compute; split; reflexivity.
Defined.


(** ** The header and the entry point *)

Lemma ispowerof2_power (n : Z) :
  _ispowerof2 n = true -> exists k, 0 <= k /\ n = 2 ^ k.
Proof.
  unfold _ispowerof2. intros H. apply andb_true_iff in H. destruct H as [_ H].
  apply Z.eqb_eq in H. exists (Z.log2 n). split.
  - apply Z.log2_nonneg.
  - now symmetry.
Qed.

Lemma power_ispowerof2 (k : Z) : 0 <= k -> _ispowerof2 (2 ^ k) = true.
Proof.
  intros Hk. unfold _ispowerof2. apply andb_true_iff. split.
  - apply Z.ltb_lt. now apply Z.pow_pos_nonneg.
  - apply Z.eqb_eq. now rewrite Z.log2_pow2.
Qed.

Section Header.

Variables _CHALLENGE_SIZE _BLOCK_HASH_SIZE _AUTH_SIZE ERR_MSG_BUF_SIZE : Z.
Variable _hash_individual_block : hash_alg -> list byte -> list byte.
Variable PEM_read_RSAPrivateKey : list byte -> list byte -> option RSA.

Local Abbreviation read_basic_header := (_read_basic_header _CHALLENGE_SIZE).
Local Abbreviation find_selected_block :=
  (_find_selected_block _CHALLENGE_SIZE _BLOCK_HASH_SIZE _AUTH_SIZE
     _hash_individual_block).
Local Abbreviation find_block_slow :=
  (__find_block_slow _CHALLENGE_SIZE _BLOCK_HASH_SIZE _hash_individual_block).

Lemma read_basic_header_no_flag (name : string) (data : list byte) (rsa : RSA) :
  strlen data < 1 ->
  read_basic_header (mkFILE name data 0) rsa
  = ([EvFread name 1 0; EvPrintf fast_flag_msg; EvRSA_free; EvPrintf EmptyString;
      EvFclose name], Exit 1).
Proof.
  intros Hn. unfold _read_basic_header, fread. cbn [fdata fpos fname].
  assert (Hflag : strlen (window data 0 1) = 0)
    by (rewrite strlen_window by lia; pose proof (strlen_nonneg data); lia).
  mstep. rewrite !Hflag. reflexivity.
Qed.

Lemma read_basic_header_no_challenge (name : string) (data : list byte) (rsa : RSA) :
  0 <= _CHALLENGE_SIZE ->
  1 <= strlen data < 1 + _CHALLENGE_SIZE ->
  read_basic_header (mkFILE name data 0) rsa
  = ([EvFread name 1 1; EvFread name _CHALLENGE_SIZE (strlen data - 1);
      EvPrintf challenge_msg; EvRSA_free; EvPrintf EmptyString; EvFclose name], Exit 1).
Proof.
  intros Hc Hn. unfold _read_basic_header, fread. cbn [fdata fpos fname].
  assert (Hflag : strlen (window data 0 1) = 1) by (rewrite strlen_window; lia).
  assert (Hch : strlen (window data 1 _CHALLENGE_SIZE) = strlen data - 1)
    by (rewrite strlen_window; lia).
  mstep. rewrite !Hflag. change (1 <? 1) with false. change (0 + 1) with 1.
  mstep. rewrite !Hch.
  replace (strlen data - 1 <? _CHALLENGE_SIZE) with true
    by (symmetry; apply Z.ltb_lt; lia).
  reflexivity.
Qed.

Lemma read_basic_header_ok (name : string) (data : list byte) (rsa : RSA) :
  0 <= _CHALLENGE_SIZE ->
  1 + _CHALLENGE_SIZE <= strlen data ->
  read_basic_header (mkFILE name data 0) rsa
  = ([EvFread name 1 1; EvFread name _CHALLENGE_SIZE _CHALLENGE_SIZE],
     Ret (bool_of_bytes (window data 0 1), window data 1 _CHALLENGE_SIZE,
          mkFILE name data (1 + _CHALLENGE_SIZE))).
Proof.
  intros Hc Hn. unfold _read_basic_header, fread. cbn [fdata fpos fname].
  assert (Hflag : strlen (window data 0 1) = 1) by (rewrite strlen_window; lia).
  assert (Hch : strlen (window data 1 _CHALLENGE_SIZE) = _CHALLENGE_SIZE)
    by (rewrite strlen_window; lia).
  mstep. rewrite !Hflag. change (1 <? 1) with false. change (0 + 1) with 1.
  mstep. rewrite !Hch. rewrite Z.ltb_irrefl.
  reflexivity.
Qed.

(** *** [_find_selected_block], case by case *)

Section Opened.

Variables (fuel : nat) (fs : filesystem) (encrypted_file : string).
Variables (encrypted_file_size block_size : Z) (rsa : RSA).
Variables (rsa_block_size : Z) (password data : list byte).

Hypothesis challenge_size_nonneg : 0 <= _CHALLENGE_SIZE.
Hypothesis auth_size_nonneg : 0 <= _AUTH_SIZE.
Hypothesis opened : fs encrypted_file = Some data.

Local Abbreviation run :=
  (find_selected_block fuel fs encrypted_file encrypted_file_size block_size
     rsa rsa_block_size password).

Lemma find_selected_block_no_flag :
  strlen data < 1 ->
  run = ([EvFopen encrypted_file true; EvFread encrypted_file 1 0;
          EvPrintf fast_flag_msg; EvRSA_free; EvPrintf EmptyString;
          EvFclose encrypted_file], Exit 1).
Proof.
  intros Hn. unfold _find_selected_block, fopen. rewrite opened. mstep.
  rewrite read_basic_header_no_flag by assumption. reflexivity.
Qed.

Lemma find_selected_block_no_challenge :
  1 <= strlen data < 1 + _CHALLENGE_SIZE ->
  run = ([EvFopen encrypted_file true; EvFread encrypted_file 1 1;
          EvFread encrypted_file _CHALLENGE_SIZE (strlen data - 1);
          EvPrintf challenge_msg; EvRSA_free; EvPrintf EmptyString;
          EvFclose encrypted_file], Exit 1).
Proof.
  intros Hn. unfold _find_selected_block, fopen. rewrite opened. mstep.
  rewrite read_basic_header_no_challenge by assumption. reflexivity.
Qed.

Lemma find_selected_block_no_auth :
  1 + _CHALLENGE_SIZE <= strlen data < 1 + _CHALLENGE_SIZE + _AUTH_SIZE ->
  bool_of_bytes (window data 0 1) = true ->
  run = ([EvFopen encrypted_file true; EvFread encrypted_file 1 1;
          EvFread encrypted_file _CHALLENGE_SIZE _CHALLENGE_SIZE;
          EvFread encrypted_file _AUTH_SIZE
            (strlen data - 1 - _CHALLENGE_SIZE);
          EvPrintf auth_msg; EvRSA_free; EvPrintf EmptyString;
          EvFclose encrypted_file], Exit 1).
Proof.
  intros Hn Hfast. unfold _find_selected_block, fopen. rewrite opened. mstep.
  rewrite read_basic_header_ok by lia. rewrite bind_value. cbv beta iota.
  rewrite Hfast. unfold fread. cbn [fname fdata fpos].
  assert (Hauth : strlen (window data (1 + _CHALLENGE_SIZE) _AUTH_SIZE)
                  = strlen data - 1 - _CHALLENGE_SIZE)
    by (rewrite strlen_window; lia).
  mstep. rewrite !Hauth.
  replace (strlen data - 1 - _CHALLENGE_SIZE <? _AUTH_SIZE) with true
    by (symmetry; apply Z.ltb_lt; lia).
  reflexivity.
Qed.

Lemma find_selected_block_fast :
  1 + _CHALLENGE_SIZE + _AUTH_SIZE <= strlen data ->
  bool_of_bytes (window data 0 1) = true ->
  run = ([EvFopen encrypted_file true; EvFread encrypted_file 1 1;
          EvFread encrypted_file _CHALLENGE_SIZE _CHALLENGE_SIZE;
          EvFread encrypted_file _AUTH_SIZE _AUTH_SIZE;
          EvFclose encrypted_file], Ret 0).
Proof.
  intros Hn Hfast. unfold _find_selected_block, fopen. rewrite opened. mstep.
  rewrite read_basic_header_ok by lia. rewrite bind_value. cbv beta iota.
  rewrite Hfast. unfold fread. cbn [fname fdata fpos].
  assert (Hauth : strlen (window data (1 + _CHALLENGE_SIZE) _AUTH_SIZE)
                  = _AUTH_SIZE)
    by (rewrite strlen_window; lia).
  mstep. rewrite !Hauth. rewrite Z.ltb_irrefl.
  reflexivity.
Qed.

Lemma find_selected_block_slow :
  1 + _CHALLENGE_SIZE <= strlen data ->
  bool_of_bytes (window data 0 1) = false ->
  run = prepend
          [EvFopen encrypted_file true; EvFread encrypted_file 1 1;
           EvFread encrypted_file _CHALLENGE_SIZE _CHALLENGE_SIZE]
          (selected_block_index <-
             find_block_slow fuel
               (mkFILE encrypted_file data (1 + _CHALLENGE_SIZE))
               encrypted_file_size block_size rsa rsa_block_size password
               (window data 1 _CHALLENGE_SIZE) ;;
           emit (EvFclose encrypted_file) ;;
           ret selected_block_index).
Proof.
  intros Hn Hfast. unfold _find_selected_block, fopen. rewrite opened. mstep.
  rewrite read_basic_header_ok by lia. rewrite bind_value. cbv beta iota.
  rewrite Hfast. rewrite prepend_prepend. reflexivity.
Qed.

End Opened.

(** C5: the header is read flag first (one byte), challenge next, and
    the auth tag exactly when the flag is set.  A short read ends the
    run at once, with the message that names the field being read,
    the key freed, the file closed and exit status 1; nothing more of
    the header is read after it. *)
Theorem header_read_order :
  forall (fuel : nat) (fs : filesystem) (encrypted_file : string)
         (encrypted_file_size block_size : Z) (rsa : RSA) (rsa_block_size : Z)
         (password data : list byte),
    0 <= _CHALLENGE_SIZE ->
    0 <= _AUTH_SIZE ->
    fs encrypted_file = Some data ->
    let n := strlen data in
    let fast := bool_of_bytes (window data 0 1) in
    let run :=
      find_selected_block fuel fs encrypted_file encrypted_file_size
        block_size rsa rsa_block_size password in
    (n < 1 ->
     run = ([EvFopen encrypted_file true; EvFread encrypted_file 1 0;
             EvPrintf fast_flag_msg; EvRSA_free; EvPrintf EmptyString;
             EvFclose encrypted_file], Exit 1)) /\
    (1 <= n < 1 + _CHALLENGE_SIZE ->
     run = ([EvFopen encrypted_file true; EvFread encrypted_file 1 1;
             EvFread encrypted_file _CHALLENGE_SIZE (n - 1);
             EvPrintf challenge_msg; EvRSA_free; EvPrintf EmptyString;
             EvFclose encrypted_file], Exit 1)) /\
    (1 + _CHALLENGE_SIZE <= n < 1 + _CHALLENGE_SIZE + _AUTH_SIZE ->
     fast = true ->
     run = ([EvFopen encrypted_file true; EvFread encrypted_file 1 1;
             EvFread encrypted_file _CHALLENGE_SIZE _CHALLENGE_SIZE;
             EvFread encrypted_file _AUTH_SIZE (n - 1 - _CHALLENGE_SIZE);
             EvPrintf auth_msg; EvRSA_free; EvPrintf EmptyString;
             EvFclose encrypted_file], Exit 1)) /\
    (1 + _CHALLENGE_SIZE + _AUTH_SIZE <= n ->
     fast = true ->
     run = ([EvFopen encrypted_file true; EvFread encrypted_file 1 1;
             EvFread encrypted_file _CHALLENGE_SIZE _CHALLENGE_SIZE;
             EvFread encrypted_file _AUTH_SIZE _AUTH_SIZE;
             EvFclose encrypted_file], Ret 0)) /\
    (1 + _CHALLENGE_SIZE <= n ->
     fast = false ->
     run = prepend
             [EvFopen encrypted_file true; EvFread encrypted_file 1 1;
              EvFread encrypted_file _CHALLENGE_SIZE _CHALLENGE_SIZE]
             (selected_block_index <-
                find_block_slow fuel
                  (mkFILE encrypted_file data (1 + _CHALLENGE_SIZE))
                  encrypted_file_size block_size rsa rsa_block_size password
                  (window data 1 _CHALLENGE_SIZE) ;;
              emit (EvFclose encrypted_file) ;;
              ret selected_block_index)).
Proof.
  intros fuel fs encrypted_file encrypted_file_size block_size rsa
    rsa_block_size password data Hc Ha Hfs n fast run.
  subst n fast run. repeat split; intros.
  - eapply find_selected_block_no_flag; eassumption.
  - eapply find_selected_block_no_challenge; eassumption.
  - eapply find_selected_block_no_auth; eassumption.
  - eapply find_selected_block_fast; eassumption.
  - eapply find_selected_block_slow; eassumption.
Qed.

(** C9, as the code has it: for a fast-mode file whose header is
    complete, [_find_selected_block] gives back index 0, a [size_t]
    like the slow path, whatever auth tag, challenge, password and
    block data it is given: no candidate is tried, nothing is checked
    against the auth tag, and no failure is reported. *)
Theorem fast_mode_returns_zero :
  forall (fuel : nat) (fs : filesystem) (encrypted_file : string)
         (encrypted_file_size block_size : Z) (rsa : RSA) (rsa_block_size : Z)
         (password data : list byte),
    0 <= _CHALLENGE_SIZE ->
    0 <= _AUTH_SIZE ->
    fs encrypted_file = Some data ->
    1 + _CHALLENGE_SIZE + _AUTH_SIZE <= strlen data ->
    bool_of_bytes (window data 0 1) = true ->
    let run :=
      find_selected_block fuel fs encrypted_file encrypted_file_size
        block_size rsa rsa_block_size password in
    result run = Ret 0 /\
    scan_iterations (trace run) = 0%nat /\
    printed (trace run) = [].
Proof.
  intros fuel fs encrypted_file encrypted_file_size block_size rsa
    rsa_block_size password data Hc Ha Hfs Hn Hfast run.
  subst run. rewrite (find_selected_block_fast _ _ _ _ _ _ _ _ _ Hc Ha Hfs Hn Hfast).
  repeat split.
Qed.

(** *** [decrypt_file] *)

Local Abbreviation decrypt :=
  (decrypt_file _CHALLENGE_SIZE _BLOCK_HASH_SIZE _AUTH_SIZE ERR_MSG_BUF_SIZE
     _hash_individual_block PEM_read_RSAPrivateKey).

(** C4, as the code has it: a block size that is not a power of two
    ends [decrypt_file] with the block-size message and exit status 1
    before the key file or the encrypted file is opened; by then the
    size of the encrypted file has been asked for, in the initialiser
    of [encrypted_file_size]. *)
Theorem decrypt_file_rejects_block_size :
  forall (fuel : nat) (fs : filesystem) (encrypted_file decrypted_file : string)
         (block_size : Z) (password : list byte) (private_key_file : string)
         (passphrase : list byte) (passed_block_index : Z),
    ~ (exists k, 0 <= k /\ block_size = 2 ^ k) ->
    decrypt fuel fs encrypted_file decrypted_file block_size password
      private_key_file passphrase passed_block_index
    = ([EvFileSize encrypted_file;
        EvPrintf (block_size_err_msg ERR_MSG_BUF_SIZE block_size)], Exit 1).
Proof.
  intros fuel fs encrypted_file decrypted_file block_size password
    private_key_file passphrase passed_block_index Hnot.
  assert (Hpow : _ispowerof2 block_size = false).
  { destruct (_ispowerof2 block_size) eqn:E; [|reflexivity].
    exfalso. apply Hnot. now apply ispowerof2_power. }
  unfold decrypt_file, _get_file_size. mstep. rewrite Hpow.
  reflexivity.
Qed.

(** C3, as the code has it: with a non-negative [passed_block_index]
    (the block size being a power of two and the private key loaded)
    [decrypt_file] uses that index unchanged and never calls
    [_find_selected_block]: no candidate is tried and the encrypted
    file is neither opened nor read, so that its header is not parsed
    and cannot make the call fail. *)
Theorem decrypt_file_override :
  forall (fuel : nat) (fs : filesystem) (encrypted_file decrypted_file : string)
         (block_size : Z) (password : list byte) (private_key_file : string)
         (passphrase : list byte) (passed_block_index : Z)
         (key_data : list byte) (key : RSA),
    0 <= passed_block_index < LONG_MAX_plus_1 ->
    _ispowerof2 block_size = true ->
    fs private_key_file = Some key_data ->
    PEM_read_RSAPrivateKey key_data passphrase = Some key ->
    decrypt fuel fs encrypted_file decrypted_file block_size password
      private_key_file passphrase passed_block_index
    = ([EvFileSize encrypted_file; EvRSA_new; EvFopen private_key_file true;
        EvPEM_read true; EvFclose private_key_file; EvRSA_free],
       Ret passed_block_index).
Proof.
  intros fuel fs encrypted_file decrypted_file block_size password
    private_key_file passphrase passed_block_index key_data key
    Hidx Hpow Hkey Hpem.
  unfold decrypt_file, _get_file_size. mstep. rewrite Hpow. cbn [negb]. mstep.
  unfold _read_private_key, RSA_new, fopen. mstep. rewrite Hkey. mstep.
  rewrite Hpem. cbn [is_some]. unfold fclose. cbn [fname]. mstep.
  replace (passed_block_index <? 0) with false
    by (symmetry; apply Z.ltb_ge; lia).
  rewrite to_size_t_small
    by (unfold LONG_MAX_plus_1, SIZE_MAX_plus_1 in *; lia).
  reflexivity.
Qed.

End Header.

(** ** The code on concrete files *)

(** A file cut short inside its challenge, and the complete slow-mode
    header of the scenario. *)
Lemma header_read_order_witness :
  toy_find_selected_block 20 (toy_fs [x00; x01] x20) "enc" 2 16 (toy_rsa 32)
    32 pw
  = ([EvFopen "enc" true; EvFread "enc" 1 1; EvFread "enc" 32 1;
      EvPrintf challenge_msg; EvRSA_free; EvPrintf EmptyString; EvFclose "enc"], Exit 1).
Proof.
  apply (proj1 (proj2
    (header_read_order 32 32 32 toy_hash 20 (toy_fs [x00; x01] x20) "enc" 2 16
       (toy_rsa 32) 32 pw [x00; x01] ltac:(lia) ltac:(lia) eq_refl))).
  unfold strlen. cbn. lia.
Defined.

Lemma fast_mode_returns_zero_witness :
  let run :=
    toy_find_selected_block 20 (toy_fs fast_file x20) "enc" 129 16 (toy_rsa 32)
      32 pw in
  result run = Ret 0 /\
  scan_iterations (trace run) = 0%nat /\
  printed (trace run) = [].
Proof.
  apply (fast_mode_returns_zero 32 32 32 toy_hash 20 (toy_fs fast_file x20)
           "enc" 129 16 (toy_rsa 32) 32 pw fast_file).
  - lia.
  - lia.
  - reflexivity.
  - vm_compute. discriminate.
  - reflexivity.
Defined.

(** C9, as stated, fails: the auth tag of [fast_file] matches the auth
    hash of no index, whatever the encoding of the index, and the fast
    path still answers with index 0 instead of failing. *)
Lemma fast_mode_ignores_auth_tag :
  let run :=
    toy_find_selected_block 20 (toy_fs fast_file x20) "enc" 129 16 (toy_rsa 32)
      32 pw in
  result run = Ret 0 /\
  (forall (index_bytes : Z -> list byte) (index : Z),
     auth_matches 32 toy_hash index_bytes key_challenge index pw (repeat x01 32)
     = false).
Proof.
  split.
  - vm_compute. reflexivity.
  - intros index_bytes index. unfold auth_matches. cbn [toy_hash].
    vm_compute. reflexivity.
Qed.

Lemma three_is_no_power_of_two : ~ (exists k, 0 <= k /\ 3 = 2 ^ k).
Proof.
  intros (k & Hk & H).
  destruct (Z.eq_dec k 0) as [-> | H0]; [discriminate H|].
  destruct (Z.eq_dec k 1) as [-> | H1]; [discriminate H|].
  pose proof (Z.pow_le_mono_r 2 2 k ltac:(lia) ltac:(lia)) as Hle.
  change (2 ^ 2) with 4 in Hle. lia.
Defined.

Lemma decrypt_file_rejects_block_size_witness :
  toy_decrypt_file 20 (toy_fs slow_file x20) "enc" "out" 3 pw "key.pem" [] (-1)
  = ([EvFileSize "enc";
      EvPrintf ("[ERROR] block_size 3 must be a power of 2." ++ nl)%string],
     Exit 1).
Proof.
  apply (decrypt_file_rejects_block_size 32 32 32 128 toy_hash toy_PEM_read 20
           (toy_fs slow_file x20) "enc" "out" 3 pw "key.pem" [] (-1)
           three_is_no_power_of_two).
Defined.

(** C4, as stated, fails: with block size 3 the run ends in the
    block-size failure, and the first thing it did was to ask the file
    system for the size of the encrypted file. *)
Lemma block_size_check_follows_file_size_query :
  let run :=
    toy_decrypt_file 20 (toy_fs slow_file x20) "enc" "out" 3 pw "key.pem" []
      (-1) in
  result run = Exit 1 /\
  hd_error (trace run) = Some (EvFileSize "enc") /\
  existsb is_file_io (trace run) = true.
Proof. vm_compute. repeat split. Qed.

Lemma decrypt_file_override_witness :
  toy_decrypt_file 20 (toy_fs [] x20) "enc" "out" 16 pw "key.pem" [] 5
  = ([EvFileSize "enc"; EvRSA_new; EvFopen "key.pem" true; EvPEM_read true;
      EvFclose "key.pem"; EvRSA_free], Ret 5).
Proof.
  apply (decrypt_file_override 32 32 32 128 toy_hash toy_PEM_read 20
           (toy_fs [] x20) "enc" "out" 16 pw "key.pem" [] 5 [x20] (toy_rsa 32)).
  - unfold LONG_MAX_plus_1. lia.
  - reflexivity.
  - reflexivity.
  - reflexivity.
Defined.

(** C3, as stated, fails: the encrypted file is empty, so that reading
    its header fails when the block is searched for; with the index 5
    passed in, the same file is never opened or read and the call ends
    normally with index 5. *)
Lemma override_skips_header_parsing :
  let searched :=
    toy_decrypt_file 20 (toy_fs [] x20) "enc" "out" 16 pw "key.pem" [] (-1) in
  let overridden :=
    toy_decrypt_file 20 (toy_fs [] x20) "enc" "out" 16 pw "key.pem" [] 5 in
  result searched = Exit 1 /\
  printed (trace searched) = [fast_flag_msg; EmptyString] /\
  result overridden = Ret 5 /\
  count (is_fopen "enc") (trace overridden) = 0%nat /\
  count (is_file_read "enc") (trace overridden) = 0%nat.
Proof. vm_compute. repeat split. Qed.

(** C2, as stated, fails: on the file whose challenge no block
    reproduces, the scan tries its four offsets and then terminates the
    process; no value comes back to the caller. *)
Lemma not_found_terminates_process :
  let run :=
    toy_find_block_slow 10 (mkFILE "enc" wrong_challenge_file 33) 64 16
      (toy_rsa 32) 32 pw wrong_challenge in
  scan_iterations (trace run) = 4%nat /\
  result run = Exit 1 /\
  terminates_process run = true.
Proof. vm_compute. repeat split. Qed.


(** C8 on the not-found path: the key was loaded and the encrypted file
    opened, the process exits, and neither [RSA_free] nor [fclose] of
    the encrypted file has been called. *)
Lemma not_found_releases_nothing :
  let run :=
    toy_decrypt_file 20 (toy_fs wrong_challenge_file x20) "enc" "out" 16 pw
      "key.pem" [] (-1) in
  result run = Exit 1 /\
  printed (trace run) = [not_found_msg] /\
  count is_key_loaded (trace run) = 1%nat /\
  count is_RSA_free (trace run) = 0%nat /\
  count (is_fopen "enc") (trace run) = 1%nat /\
  count (is_fclose "enc") (trace run) = 0%nat.
Proof. vm_compute. repeat split. Qed.

(** The sibling paths: a truncated header and a found block release the
    key and close the file once each. *)
Lemma other_paths_release_once :
  let truncated :=
    toy_decrypt_file 20 (toy_fs [x00; x01] x20) "enc" "out" 16 pw "key.pem" []
      (-1) in
  let found :=
    toy_decrypt_file 20 (toy_fs slow_file x20) "enc" "out" 16 pw "key.pem" []
      (-1) in
  (result truncated = Exit 1 /\
   count is_RSA_free (trace truncated) = 1%nat /\
   count (is_fclose "enc") (trace truncated) = 1%nat) /\
  (result found = Ret 1 /\
   count is_RSA_free (trace found) = 1%nat /\
   count (is_fclose "enc") (trace found) = 1%nat).
Proof. vm_compute. repeat split. Qed.

(** C10 on a file of the OAEP case: block size 16, password "pw", a
    128-byte key.  The first window decrypts to 64 bytes, which
    [RSA_private_decrypt] stores in the 18 bytes of [decrypted_block]. *)
Lemma oaep_plaintext_overruns_buffer :
  let run :=
    toy_decrypt_file 20 (toy_fs long_plain_file x80) "enc" "out" 16 pw
      "key.pem" [] (-1) in
  option_map strlen (candidate long_plain_file 33 16 (toy_rsa 128) 128 0)
    = Some 64 /\
  16 + strlen pw = 18 /\
  result run = Undefined BufferOverrun.
Proof. vm_compute. repeat split. Qed.

(** * Further properties of the code *)

(** ** Traces of composed computations *)

Lemma trace_bind {A B : Type} (m : M A) (f : A -> M B) :
  trace (bind m f) =
  trace m ++ match result m with
             | Ret a => trace (f a)
             | _ => []
             end.
Proof.
  destruct m as [t [a|s|u|]]; unfold trace, result, bind; cbn [fst snd];
    [destruct (f a); reflexivity | | |]; now rewrite app_nil_r.
Qed.

Lemma result_bind {A B : Type} (m : M A) (f : A -> M B) :
  result (bind m f) =
  match result m with
  | Ret a => result (f a)
  | Exit s => Exit s
  | Undefined u => Undefined u
  | OutOfFuel => OutOfFuel
  end.
Proof.
  destruct m as [t [a|s|u|]]; unfold result, bind; cbn [fst snd];
    [destruct (f a)| | |]; reflexivity.
Qed.

Lemma trace_prepend {A : Type} (evs : list event) (m : M A) :
  trace (prepend evs m) = evs ++ trace m.
Proof. reflexivity. Qed.

Lemma result_prepend {A : Type} (evs : list event) (m : M A) :
  result (prepend evs m) = result m.
Proof. reflexivity. Qed.

Lemma count_app (p : event -> bool) (t1 t2 : list event) :
  count p (t1 ++ t2) = (count p t1 + count p t2)%nat.
Proof. unfold count. now rewrite filter_app, length_app. Qed.

Lemma count_none (p q : event -> bool) (t : list event) :
  (forall e, q e = true -> p e = false) ->
  Forall (fun e => q e = true) t ->
  count p t = 0%nat.
Proof.
  intros Hpq Ht. unfold count. induction Ht as [|e t He _ IH]; [reflexivity|].
  cbn [filter]. now rewrite (Hpq e He).
Qed.

Lemma decrypt_paddings_app (t1 t2 : list event) :
  decrypt_paddings (t1 ++ t2) = decrypt_paddings t1 ++ decrypt_paddings t2.
Proof.
  induction t1 as [|e t1 IH]; [reflexivity|].
  destruct e; cbn [app decrypt_paddings]; rewrite ?IH; reflexivity.
Qed.

Lemma decrypt_paddings_none (t : list event) :
  Forall (fun e => is_not_decrypt e = true) t -> decrypt_paddings t = [].
Proof.
  induction 1 as [|e t He _ IH]; [reflexivity|].
  destruct e; try discriminate He; exact IH.
Qed.

(** ** Loading the private key *)

Section PrivateKey.

Variable PEM_read_RSAPrivateKey : list byte -> list byte -> option RSA.

Local Abbreviation read_private_key := (_read_private_key PEM_read_RSAPrivateKey).

Lemma read_private_key_cases (fs : filesystem) (private_key_file : string)
    (passphrase : list byte) :
  read_private_key fs private_key_file passphrase =
  match fs private_key_file with
  | None => ([EvRSA_new; EvFopen private_key_file false; EvRSA_free], Ret None)
  | Some data =>
    match PEM_read_RSAPrivateKey data passphrase with
    | None =>
      ([EvRSA_new; EvFopen private_key_file true; EvPEM_read false;
        EvFclose private_key_file], Ret None)
    | Some key =>
      ([EvRSA_new; EvFopen private_key_file true; EvPEM_read true;
        EvFclose private_key_file], Ret (Some key))
    end
  end.
Proof.
  unfold _read_private_key, RSA_new, fopen. mstep.
  destruct (fs private_key_file) as [data|]; [|reflexivity].
  mstep. destruct (PEM_read_RSAPrivateKey data passphrase); reflexivity.
Qed.

(** [_read_private_key] always comes back to its caller: with the key
    when the file exists and parses under the passphrase, with [NULL]
    otherwise.  The key file is closed once when it was opened and not
    at all when it was not; and the fresh structure of [RSA_new] is
    handed to [RSA_free] only when the file cannot be opened. *)
Theorem read_private_key_outcome :
  forall (fs : filesystem) (private_key_file : string) (passphrase : list byte),
    let run := read_private_key fs private_key_file passphrase in
    result run =
      Ret (match fs private_key_file with
           | Some data => PEM_read_RSAPrivateKey data passphrase
           | None => None
           end) /\
    count (is_fclose private_key_file) (trace run) =
      count (is_fopen private_key_file) (trace run) /\
    count is_RSA_free (trace run) =
      (if is_some (fs private_key_file) then 0 else 1)%nat /\
    printed (trace run) = [].
Proof.
  intros fs private_key_file passphrase run. subst run.
  rewrite read_private_key_cases.
  destruct (fs private_key_file) as [data|].
  - destruct (PEM_read_RSAPrivateKey data passphrase);
      unfold count; cbn; rewrite String.eqb_refl; repeat split.
  - unfold count. cbn. repeat split.
Qed.

End PrivateKey.

(** ** More on the scan loop *)

Lemma scan_iterations_app (t1 t2 : list event) :
  scan_iterations (t1 ++ t2) = (scan_iterations t1 + scan_iterations t2)%nat.
Proof. unfold scan_iterations. now rewrite decrypt_paddings_app, length_app. Qed.

Lemma is_undefined_prepend {A : Type} (evs : list event) (m : M A) :
  is_undefined (prepend evs m) = is_undefined m.
Proof. reflexivity. Qed.

Lemma is_out_of_fuel_prepend {A : Type} (evs : list event) (m : M A) :
  is_out_of_fuel (prepend evs m) = is_out_of_fuel m.
Proof. reflexivity. Qed.

Section ScanBounds.

Variables _CHALLENGE_SIZE _BLOCK_HASH_SIZE : Z.
Variable _hash_individual_block : hash_alg -> list byte -> list byte.

Local Abbreviation loop :=
  (__find_block_slow_loop _CHALLENGE_SIZE _BLOCK_HASH_SIZE _hash_individual_block).

Variables (file_size block_size : Z) (rsa : RSA) (rsa_block_size : Z).
Variables (password challenge : list byte) (end_of_header : Z) (pad : padding).

(** The loop seeks, reads, decrypts and prints, nothing else. *)
Lemma loop_events (fuel : nat) :
  forall (i : Z) (fp : FILE),
    Forall (fun e => is_scan_event e = true)
      (trace (loop fuel file_size block_size rsa rsa_block_size password
                challenge end_of_header pad i fp)).
Proof.
  induction fuel as [|fuel IH]; intros i fp.
  - constructor.
  - rewrite loop_step. destruct (i <? file_size).
    2:{ repeat constructor. }
    cbv zeta.
    match goal with
    | |- context [prepend ?evs (loop fuel ?a ?b ?c ?d ?e ?f ?g ?h ?j ?fp2)] =>
      pose proof (IH j fp2) as Hrec;
      destruct (loop fuel a b c d e f g h j fp2) as [t' o']
    end.
    unfold trace in *. cbn [fst] in Hrec.
    destruct (RSA_private_decrypt rsa _ pad) as [plain|];
      [destruct (block_size <? strlen plain);
       [|destruct (memcmp_eq _ _ _); [destruct (block_size =? 0)|]]|];
      cbn; repeat constructor; assumption.
Qed.

(** Every turn seeks once and decrypts once. *)
Lemma loop_seeks_count (fuel : nat) :
  forall (i : Z) (fp : FILE),
    let t := trace (loop fuel file_size block_size rsa rsa_block_size password
                      challenge end_of_header pad i fp) in
    scan_iterations t = List.length (seeks t).
Proof.
  induction fuel as [|fuel IH]; intros i fp; [reflexivity|].
  cbv zeta. rewrite loop_step. destruct (i <? file_size); [|reflexivity].
  cbv zeta.
  match goal with
  | |- context [prepend ?evs (loop fuel ?a ?b ?c ?d ?e ?f ?g ?h ?j ?fp2)] =>
    pose proof (IH j fp2) as Hrec; cbv zeta in Hrec;
    destruct (loop fuel a b c d e f g h j fp2) as [t' o']
  end.
  unfold trace, prepend, scan_iterations in *. cbn [fst snd] in *.
  destruct (RSA_private_decrypt rsa _ pad) as [plain|];
    [destruct (block_size <? strlen plain);
     [|destruct (memcmp_eq _ _ _); [destruct (block_size =? 0)|]]|];
    cbn [fst app decrypt_paddings seeks List.length]; congruence.
Qed.

(** With a positive block size and plaintexts no longer than the block
    size, no turn of the loop has undefined behaviour. *)
Lemma loop_defined (fuel : nat) :
  0 < block_size ->
  (forall from plain,
     RSA_private_decrypt rsa from pad = Some plain ->
     strlen plain <= block_size) ->
  forall (i : Z) (fp : FILE),
    is_undefined (loop fuel file_size block_size rsa rsa_block_size password
                    challenge end_of_header pad i fp) = false.
Proof.
  intros Hbs Hlen. induction fuel as [|fuel IH]; intros i fp; [reflexivity|].
  rewrite loop_step. destruct (i <? file_size); [|reflexivity].
  cbv zeta.
  destruct (RSA_private_decrypt rsa _ pad) as [plain|] eqn:Hdec.
  - apply Hlen in Hdec.
    replace (block_size <? strlen plain) with false
      by (symmetry; apply Z.ltb_ge; lia).
    destruct (memcmp_eq _ _ _).
    + replace (block_size =? 0) with false by (symmetry; apply Z.eqb_neq; lia).
      reflexivity.
    + rewrite is_undefined_prepend. apply IH.
  - rewrite is_undefined_prepend. apply IH.
Qed.

Hypothesis block_size_pos : 0 < block_size.
Hypothesis no_wrap : file_size + block_size <= SIZE_MAX_plus_1.

(** Fuel for every offset below [file_size] is fuel enough. *)
Lemma loop_terminates (fuel : nat) :
  forall (i : Z) (fp : FILE),
    0 <= i ->
    file_size <= i + Z.of_nat fuel * block_size ->
    is_out_of_fuel (loop (S fuel) file_size block_size rsa rsa_block_size
                      password challenge end_of_header pad i fp) = false.
Proof.
  induction fuel as [|fuel IH]; intros i fp Hi Hfuel; rewrite loop_step.
  - replace (i <? file_size) with false by (symmetry; apply Z.ltb_ge; lia).
    reflexivity.
  - destruct (i <? file_size) eqn:Hin; [|reflexivity].
    apply Z.ltb_lt in Hin. cbv zeta.
    rewrite to_size_t_small by lia.
    destruct (RSA_private_decrypt rsa _ pad) as [plain|].
    + destruct (block_size <? strlen plain); [reflexivity|].
      destruct (memcmp_eq _ _ _).
      * destruct (block_size =? 0); reflexivity.
      * rewrite is_out_of_fuel_prepend. apply IH; lia.
    + rewrite is_out_of_fuel_prepend. apply IH; lia.
Qed.

(** The candidates tried from offset [i] on all start below
    [file_size]. *)
Lemma loop_iterations (fuel : nat) :
  forall (i : Z) (fp : FILE),
    0 <= i ->
    let n := Z.of_nat
               (scan_iterations
                  (trace (loop fuel file_size block_size rsa rsa_block_size
                            password challenge end_of_header pad i fp))) in
    n = 0 \/ i + (n - 1) * block_size < file_size.
Proof.
  induction fuel as [|fuel IH]; intros i fp Hi; [now left|].
  cbv zeta. rewrite loop_step.
  destruct (i <? file_size) eqn:Hin; [|now left].
  apply Z.ltb_lt in Hin. cbv zeta.
  rewrite to_size_t_small by lia.
  match goal with
  | |- context [prepend ?evs (loop fuel ?a ?b ?c ?d ?e ?f ?g ?h ?j ?fp2)] =>
    pose proof (IH j fp2 ltac:(lia)) as Hrec; cbv zeta in Hrec;
    destruct (loop fuel a b c d e f g h j fp2) as [t' o']
  end.
  unfold trace, prepend in *. cbn [fst snd] in *.
  right.
  destruct (RSA_private_decrypt rsa _ pad) as [plain|];
    [destruct (block_size <? strlen plain);
     [|destruct (memcmp_eq _ _ _); [destruct (block_size =? 0)|]]|];
    cbn [fst]; rewrite ?scan_iterations_app;
    unfold scan_iterations in *; cbn [decrypt_paddings List.length Nat.add] in *;
    lia.
Qed.

End ScanBounds.

(** With block size 0 the loop stays at offset 0: a first candidate that
    is turned down is tried again on every turn. *)
Lemma loop_stuck (_CHALLENGE_SIZE _BLOCK_HASH_SIZE : Z)
    (_hash_individual_block : hash_alg -> list byte -> list byte)
    (file_size : Z) (rsa : RSA) (rsa_block_size : Z)
    (password challenge data : list byte) (end_of_header : Z) (fuel : nat) :
  0 < file_size ->
  0 <= end_of_header < LONG_MAX_plus_1 ->
  accepts _CHALLENGE_SIZE _BLOCK_HASH_SIZE _hash_individual_block data
    end_of_header 0 rsa rsa_block_size password challenge 0 = false ->
  fits data end_of_header 0 rsa rsa_block_size 0 = true ->
  forall fp : FILE,
    fdata fp = data ->
    let run :=
      __find_block_slow_loop _CHALLENGE_SIZE _BLOCK_HASH_SIZE
        _hash_individual_block fuel file_size 0 rsa rsa_block_size password
        challenge end_of_header (determine_padding 0 rsa_block_size) 0 fp in
    result run = OutOfFuel /\ scan_iterations (trace run) = fuel.
Proof.
  intros Hsize Hpos Hacc Hfit.
  unfold accepts, fits, candidate in Hacc, Hfit. rewrite Z.add_0_r in Hacc, Hfit.
  induction fuel as [|fuel IH]; intros fp Hdata; [split; reflexivity|].
  cbv zeta. rewrite loop_step.
  replace (0 <? file_size) with true by (symmetry; apply Z.ltb_lt; lia).
  cbv zeta. rewrite Z.add_0_r, to_long_small by lia.
  replace (end_of_header <? 0) with false by (symmetry; apply Z.ltb_ge; lia).
  cbn [fpos]. rewrite Hdata. change (to_size_t (0 + 0)) with 0.
  match goal with
  | |- context [prepend ?evs (__find_block_slow_loop ?x ?y ?z fuel ?a ?b ?c ?d ?e ?f ?g ?h ?j ?fp2)] =>
    destruct (IH fp2 eq_refl) as [Hres Hn];
    destruct (__find_block_slow_loop x y z fuel a b c d e f g h j fp2) as [t' o']
  end.
  unfold result, trace, prepend in *. cbn [fst snd] in *.
  destruct (RSA_private_decrypt rsa _ _) as [plain|].
  - apply Z.leb_le in Hfit.
    replace (0 <? strlen plain) with false by (symmetry; apply Z.ltb_ge; lia).
    rewrite Hacc. cbn [fst snd]. split; [assumption|].
    rewrite scan_iterations_app, Hn. reflexivity.
  - cbn [fst snd]. split; [assumption|].
    rewrite scan_iterations_app, Hn. reflexivity.
Qed.

Section SlowScanMore.

Variables _CHALLENGE_SIZE _BLOCK_HASH_SIZE : Z.
Variable _hash_individual_block : hash_alg -> list byte -> list byte.

Local Abbreviation find_block_slow :=
  (__find_block_slow _CHALLENGE_SIZE _BLOCK_HASH_SIZE _hash_individual_block).

(** The scan ends: with a positive block size and no wrap-around of the
    offset, [file_size / block_size + 2] evaluations of the loop
    condition are enough for the loop to stop, and however long it
    runs, every candidate it tries starts below [file_size]. *)
Theorem find_block_slow_terminates :
  forall (fuel : nat) (fp : FILE) (file_size block_size : Z) (rsa : RSA)
         (rsa_block_size : Z) (password challenge : list byte),
    0 < block_size ->
    0 <= file_size ->
    file_size + block_size <= SIZE_MAX_plus_1 ->
    let run :=
      find_block_slow fuel fp file_size block_size rsa rsa_block_size
        password challenge in
    (file_size / block_size + 2 <= Z.of_nat fuel -> is_out_of_fuel run = false) /\
    Z.of_nat (scan_iterations (trace run)) * block_size < file_size + block_size.
Proof.
  intros fuel fp file_size block_size rsa rsa_block_size password challenge
    Hbs Hsize Hwrap run. subst run. unfold __find_block_slow. split.
  - intros Hfuel.
    pose proof (Z.div_pos file_size block_size Hsize Hbs) as Hdiv.
    destruct fuel as [|fuel]; [lia|].
    apply loop_terminates; try assumption; try lia.
    pose proof (Z.div_mod file_size block_size ltac:(lia)) as Hdm.
    pose proof (Z.mod_pos_bound file_size block_size Hbs) as Hmod.
    nia.
  - pose proof (loop_iterations _CHALLENGE_SIZE _BLOCK_HASH_SIZE
                  _hash_individual_block file_size block_size rsa
                  rsa_block_size password challenge (ftell fp)
                  (determine_padding block_size rsa_block_size) Hbs Hwrap
                  fuel 0 fp ltac:(lia)) as Hn.
    cbv zeta in Hn. lia.
Qed.

(** The scan is safe when the key keeps to the block size: with a
    positive block size, if no plaintext the key yields under the
    padding of the invocation is longer than [block_size], no write
    leaves [decrypted_block] and nothing is divided by zero. *)
Theorem find_block_slow_defined :
  forall (fuel : nat) (fp : FILE) (file_size block_size : Z) (rsa : RSA)
         (rsa_block_size : Z) (password challenge : list byte),
    0 < block_size ->
    (forall from plain,
       RSA_private_decrypt rsa from (determine_padding block_size rsa_block_size)
         = Some plain ->
       strlen plain <= block_size) ->
    is_undefined
      (find_block_slow fuel fp file_size block_size rsa rsa_block_size
         password challenge) = false.
Proof.
  intros. unfold __find_block_slow. now apply loop_defined.
Qed.

(** A block size of 0 makes the scan loop for ever: when the candidate
    at offset 0 is turned down, each further turn tries it again, so
    that any amount of fuel is used up on as many candidates. *)
Theorem find_block_slow_zero_block_size :
  forall (fuel : nat) (fp : FILE) (file_size : Z) (rsa : RSA)
         (rsa_block_size : Z) (password challenge : list byte),
    0 < file_size ->
    0 <= ftell fp < LONG_MAX_plus_1 ->
    accepts _CHALLENGE_SIZE _BLOCK_HASH_SIZE _hash_individual_block (fdata fp)
      (ftell fp) 0 rsa rsa_block_size password challenge 0 = false ->
    fits (fdata fp) (ftell fp) 0 rsa rsa_block_size 0 = true ->
    let run :=
      find_block_slow fuel fp file_size 0 rsa rsa_block_size password challenge in
    result run = OutOfFuel /\ scan_iterations (trace run) = fuel.
Proof.
  intros fuel fp file_size rsa rsa_block_size password challenge
    Hsize Hpos Hacc Hfit.
  unfold __find_block_slow.
  now apply (loop_stuck _CHALLENGE_SIZE _BLOCK_HASH_SIZE _hash_individual_block
               file_size rsa rsa_block_size password challenge (fdata fp)
               (ftell fp) fuel).
Qed.

End SlowScanMore.

Lemma find_block_slow_terminates_witness :
  let run :=
    toy_find_block_slow 8 (mkFILE "enc" wrong_challenge_file 33) 97 16
      (toy_rsa 32) 32 pw wrong_challenge in
  is_out_of_fuel run = false /\
  Z.of_nat (scan_iterations (trace run)) * 16 < 97 + 16.
Proof.
  destruct (find_block_slow_terminates 32 32 toy_hash 8
              (mkFILE "enc" wrong_challenge_file 33) 97 16 (toy_rsa 32) 32 pw
              wrong_challenge) as [Hends Hbound].
  - lia.
  - lia.
  - unfold SIZE_MAX_plus_1. lia.
  - split; [apply Hends; vm_compute; discriminate | exact Hbound].
Defined.

Lemma toy_no_padding_length (size : Z) (from plain : list byte) :
  toy_decrypt size from RSA_NO_PADDING = Some plain -> strlen plain = size.
Proof.
  unfold toy_decrypt. destruct (strlen from =? size) eqn:E; [|discriminate].
  intros H. injection H as <-. apply Z.eqb_eq in E.
  unfold strlen in *. now rewrite length_rev.
Defined.

(** Block size and key size both 32: the scan runs without padding. *)
Lemma find_block_slow_defined_witness :
  is_undefined
    (toy_find_block_slow 10 (mkFILE "enc" slow_file 33) 64 32 (toy_rsa 32) 32
       pw key_challenge) = false.
Proof.
  apply (find_block_slow_defined 32 32 toy_hash 10 (mkFILE "enc" slow_file 33)
           64 32 (toy_rsa 32) 32 pw key_challenge).
  - lia.
  - intros from plain H. apply toy_no_padding_length in H. lia.
Defined.

Lemma find_block_slow_zero_block_size_witness :
  let run :=
    toy_find_block_slow 5 (mkFILE "enc" slow_file 33) 64 0 (toy_rsa 32) 32 pw
      key_challenge in
  result run = OutOfFuel /\ scan_iterations (trace run) = 5%nat.
Proof.
  apply (find_block_slow_zero_block_size 32 32 toy_hash 5
           (mkFILE "enc" slow_file 33) 64 (toy_rsa 32) 32 pw key_challenge).
  - lia.
  - unfold LONG_MAX_plus_1. simpl. lia.
  - vm_compute. reflexivity.
  - vm_compute. reflexivity.
Defined.

(** ** [_find_selected_block] and [decrypt_file] on every path *)

Lemma count_cons (p : event -> bool) (e : event) (t : list event) :
  count p (e :: t) = ((if p e then 1 else 0) + count p t)%nat.
Proof. unfold count. cbn [filter]. destruct (p e); reflexivity. Qed.

Lemma count_nil (p : event -> bool) : count p [] = 0%nat.
Proof. reflexivity. Qed.

Lemma scan_event_not_RSA_free (e : event) :
  is_scan_event e = true -> is_RSA_free e = false.
Proof. destruct e; try discriminate; reflexivity. Qed.

Lemma scan_event_not_fclose (path : string) (e : event) :
  is_scan_event e = true -> is_fclose path e = false.
Proof. destruct e; try discriminate; reflexivity. Qed.

Lemma scan_event_not_fopen (path : string) (e : event) :
  is_scan_event e = true -> is_fopen path e = false.
Proof. destruct e; try discriminate; reflexivity. Qed.

(** Counts the releases in a trace that is written out. *)
Ltac count_events :=
  rewrite ?count_app, ?count_cons, ?count_nil;
  cbn [is_RSA_free is_fclose is_fopen is_key_loaded];
  rewrite ?String.eqb_refl; cbn [Nat.add].

Section EveryPath.

Variables _CHALLENGE_SIZE _BLOCK_HASH_SIZE _AUTH_SIZE ERR_MSG_BUF_SIZE : Z.
Variable _hash_individual_block : hash_alg -> list byte -> list byte.
Variable PEM_read_RSAPrivateKey : list byte -> list byte -> option RSA.

Local Abbreviation find_selected_block :=
  (_find_selected_block _CHALLENGE_SIZE _BLOCK_HASH_SIZE _AUTH_SIZE
     _hash_individual_block).
Local Abbreviation find_block_slow :=
  (__find_block_slow _CHALLENGE_SIZE _BLOCK_HASH_SIZE _hash_individual_block).
Local Abbreviation decrypt :=
  (decrypt_file _CHALLENGE_SIZE _BLOCK_HASH_SIZE _AUTH_SIZE ERR_MSG_BUF_SIZE
     _hash_individual_block PEM_read_RSAPrivateKey).

Lemma find_selected_block_not_opened (fuel : nat) (fs : filesystem)
    (encrypted_file : string) (encrypted_file_size block_size : Z) (rsa : RSA)
    (rsa_block_size : Z) (password : list byte) :
  fs encrypted_file = None ->
  find_selected_block fuel fs encrypted_file encrypted_file_size block_size
    rsa rsa_block_size password
  = ([EvFopen encrypted_file false; EvPrintf open_failed_msg; EvRSA_free],
     Exit 1).
Proof.
  intros Hfs. unfold _find_selected_block, fopen. rewrite Hfs. reflexivity.
Qed.

(** The scan with the file closed after it, as [_find_selected_block]
    runs it on a slow-mode file. *)
Lemma closed_scan_trace (fuel : nat) (fp : FILE) (encrypted_file : string)
    (file_size block_size : Z) (rsa : RSA) (rsa_block_size : Z)
    (password challenge : list byte) :
  let scan :=
    find_block_slow fuel fp file_size block_size rsa rsa_block_size password
      challenge in
  let run :=
    (selected_block_index <- scan ;;
     emit (EvFclose encrypted_file) ;;
     ret selected_block_index) in
  result run = result scan /\
  trace run = trace scan ++ (if returns scan then [EvFclose encrypted_file] else []).
Proof.
  cbv zeta. rewrite result_bind, trace_bind. unfold returns.
  destruct (result (find_block_slow fuel fp file_size block_size rsa
                      rsa_block_size password challenge)); split; reflexivity.
Qed.

Section Cases.

Variables (fuel : nat) (fs : filesystem) (encrypted_file : string).
Variables (encrypted_file_size block_size : Z) (rsa : RSA).
Variables (rsa_block_size : Z) (password : list byte).

Hypothesis challenge_size_nonneg : 0 <= _CHALLENGE_SIZE.
Hypothesis auth_size_nonneg : 0 <= _AUTH_SIZE.

Local Abbreviation run :=
  (find_selected_block fuel fs encrypted_file encrypted_file_size block_size
     rsa rsa_block_size password).

(** The ways [_find_selected_block] can go: an error before any
    candidate is tried, the fast path, or the slow scan. *)
Lemma find_selected_block_paths :
  (result run = Exit 1 /\
   decrypt_paddings (trace run) = [] /\
   count is_RSA_free (trace run) = 1%nat /\
   count (is_fclose encrypted_file) (trace run)
     = count (is_fopen encrypted_file) (trace run) /\
   (count (is_fopen encrypted_file) (trace run) <= 1)%nat) \/
  (result run = Ret 0 /\
   decrypt_paddings (trace run) = [] /\
   count is_RSA_free (trace run) = 0%nat /\
   count (is_fclose encrypted_file) (trace run) = 1%nat /\
   count (is_fopen encrypted_file) (trace run) = 1%nat) \/
  (exists data,
     fs encrypted_file = Some data /\
     1 + _CHALLENGE_SIZE <= strlen data /\
     bool_of_bytes (window data 0 1) = false /\
     let scan :=
       find_block_slow fuel (mkFILE encrypted_file data (1 + _CHALLENGE_SIZE))
         encrypted_file_size block_size rsa rsa_block_size password
         (window data 1 _CHALLENGE_SIZE) in
     result run = result scan /\
     trace run =
       [EvFopen encrypted_file true; EvFread encrypted_file 1 1;
        EvFread encrypted_file _CHALLENGE_SIZE _CHALLENGE_SIZE]
       ++ trace scan
       ++ (if returns scan then [EvFclose encrypted_file] else [])).
Proof.
  destruct (fs encrypted_file) as [data|] eqn:Hfs.
  2:{ left. rewrite find_selected_block_not_opened by assumption.
      unfold trace, result. cbn [fst snd]. count_events. repeat split. lia. }
  destruct (Z_lt_le_dec (strlen data) 1) as [Hn0|Hn0].
  { left. rewrite (find_selected_block_no_flag _ _ _ _ _ _ _ _ _ _ _ _ _ Hfs Hn0).
    unfold trace, result. cbn [fst snd]. count_events. repeat split. lia. }
  destruct (Z_lt_le_dec (strlen data) (1 + _CHALLENGE_SIZE)) as [Hn1|Hn1].
  { left.
    rewrite (find_selected_block_no_challenge _ _ _ _ _ _ _ _ _ _ _ _ _
               challenge_size_nonneg Hfs (conj Hn0 Hn1)).
    unfold trace, result. cbn [fst snd]. count_events. repeat split. lia. }
  destruct (bool_of_bytes (window data 0 1)) eqn:Hfast.
  - destruct (Z_lt_le_dec (strlen data) (1 + _CHALLENGE_SIZE + _AUTH_SIZE))
      as [Hn2|Hn2].
    + left.
      rewrite (find_selected_block_no_auth _ _ _ _ _ _ _ _ _ _ _ _ _
                 challenge_size_nonneg auth_size_nonneg Hfs (conj Hn1 Hn2) Hfast).
      unfold trace, result. cbn [fst snd]. count_events. repeat split. lia.
    + right. left.
      rewrite (find_selected_block_fast _ _ _ _ _ _ _ _ _ _ _ _ _
                 challenge_size_nonneg auth_size_nonneg Hfs Hn2 Hfast).
      unfold trace, result. cbn [fst snd]. count_events. repeat split.
  - right. right. exists data. repeat split; try assumption.
    + rewrite (find_selected_block_slow _ _ _ _ _ _ _ _ _ _ _ _ _
                 challenge_size_nonneg Hfs Hn1 Hfast).
      rewrite result_prepend. apply closed_scan_trace.
    + rewrite (find_selected_block_slow _ _ _ _ _ _ _ _ _ _ _ _ _
                 challenge_size_nonneg Hfs Hn1 Hfast).
      rewrite trace_prepend. f_equal. apply closed_scan_trace.
Qed.

End Cases.

Lemma scan_trace_counts (fuel : nat) (fp : FILE) (path : string)
    (file_size block_size : Z) (rsa : RSA) (rsa_block_size : Z)
    (password challenge : list byte) :
  let t := trace (find_block_slow fuel fp file_size block_size rsa
                    rsa_block_size password challenge) in
  count is_RSA_free t = 0%nat /\
  count (is_fclose path) t = 0%nat /\
  count (is_fopen path) t = 0%nat.
Proof.
  cbv zeta. unfold __find_block_slow.
  repeat split; eapply count_none; try apply loop_events.
  - apply scan_event_not_RSA_free.
  - apply scan_event_not_fclose.
  - apply scan_event_not_fopen.
Qed.

(** [_find_selected_block] never releases twice: on no path is
    [RSA_free] called more than once or the encrypted file closed more
    than once, and it is never closed without having been opened.  A
    call that returns has closed the file it opened and has left the key
    to its caller. *)
Theorem find_selected_block_releases :
  forall (fuel : nat) (fs : filesystem) (encrypted_file : string)
         (encrypted_file_size block_size : Z) (rsa : RSA) (rsa_block_size : Z)
         (password : list byte),
    0 <= _CHALLENGE_SIZE ->
    0 <= _AUTH_SIZE ->
    let run :=
      find_selected_block fuel fs encrypted_file encrypted_file_size
        block_size rsa rsa_block_size password in
    (count is_RSA_free (trace run) <= 1)%nat /\
    (count (is_fclose encrypted_file) (trace run)
       <= count (is_fopen encrypted_file) (trace run) <= 1)%nat /\
    (returns run = true ->
     count is_RSA_free (trace run) = 0%nat /\
     count (is_fclose encrypted_file) (trace run) = 1%nat /\
     count (is_fopen encrypted_file) (trace run) = 1%nat).
Proof.
  intros fuel fs encrypted_file encrypted_file_size block_size rsa
    rsa_block_size password Hc Ha run. subst run.
  destruct (find_selected_block_paths fuel fs encrypted_file
              encrypted_file_size block_size rsa rsa_block_size password Hc Ha)
    as [(Hres & _ & Hfree & Hclose & Hopen)
       | [(Hres & _ & Hfree & Hclose & Hopen)
         | (data & _ & _ & _ & Hres & Htrace)]].
  - unfold returns. rewrite Hres, Hfree, Hclose. repeat split; try lia.
    all: discriminate.
  - unfold returns. rewrite Hres, Hfree, Hclose, Hopen. repeat split; lia.
  - cbv zeta in Hres, Htrace. unfold returns at 1. rewrite Hres, Htrace.
    fold (returns (find_block_slow fuel
                     (mkFILE encrypted_file data (1 + _CHALLENGE_SIZE))
                     encrypted_file_size block_size rsa rsa_block_size password
                     (window data 1 _CHALLENGE_SIZE))).
    destruct (scan_trace_counts fuel
                (mkFILE encrypted_file data (1 + _CHALLENGE_SIZE))
                encrypted_file encrypted_file_size block_size rsa
                rsa_block_size password (window data 1 _CHALLENGE_SIZE))
      as (Hf & Hcl & Hop).
    cbv zeta in Hf, Hcl, Hop.
    rewrite !count_app, Hf, Hcl, Hop.
    destruct (returns _); count_events; repeat split; try lia; discriminate.
Qed.

(** On a slow-mode file the block data starts right after the
    challenge.  When [_find_selected_block] returns an index, the
    window that starts [idx * block_size] bytes after the byte
    [1 + _CHALLENGE_SIZE] of the file decrypts and reproduces the
    challenge stored in the bytes 1 to [_CHALLENGE_SIZE]; no earlier
    block does; and the file has been closed. *)
Theorem find_selected_block_slow_first_match :
  forall (fuel : nat) (fs : filesystem) (encrypted_file : string)
         (encrypted_file_size block_size : Z) (rsa : RSA) (rsa_block_size : Z)
         (password data : list byte) (t : list event) (idx : Z),
    0 <= _CHALLENGE_SIZE ->
    fs encrypted_file = Some data ->
    1 + _CHALLENGE_SIZE <= strlen data ->
    bool_of_bytes (window data 0 1) = false ->
    0 < block_size ->
    encrypted_file_size + block_size <= SIZE_MAX_plus_1 ->
    1 + _CHALLENGE_SIZE + encrypted_file_size <= LONG_MAX_plus_1 ->
    find_selected_block fuel fs encrypted_file encrypted_file_size block_size
      rsa rsa_block_size password = (t, Ret idx) ->
    let accepted :=
      accepts _CHALLENGE_SIZE _BLOCK_HASH_SIZE _hash_individual_block data
        (1 + _CHALLENGE_SIZE) block_size rsa rsa_block_size password
        (window data 1 _CHALLENGE_SIZE) in
    0 <= idx * block_size < encrypted_file_size /\
    accepted (idx * block_size) = true /\
    (forall j, 0 <= j < idx -> accepted (j * block_size) = false) /\
    scan_iterations t = S (Z.to_nat idx) /\
    last t EvRSA_new = EvFclose encrypted_file.
Proof.
  intros fuel fs encrypted_file encrypted_file_size block_size rsa
    rsa_block_size password data t idx Hc Hfs Hn Hfast Hbs Hwrap Hseek Hrun
    accepted. subst accepted.
  rewrite (find_selected_block_slow _ _ _ _ _ _ _ _ _ _ _ _ _ Hc Hfs Hn Hfast)
    in Hrun.
  unfold __find_block_slow in Hrun. cbn [ftell fpos] in Hrun.
  pose proof (loop_seeks_count _CHALLENGE_SIZE _BLOCK_HASH_SIZE
                _hash_individual_block encrypted_file_size block_size rsa
                rsa_block_size password (window data 1 _CHALLENGE_SIZE)
                (1 + _CHALLENGE_SIZE)
                (determine_padding block_size rsa_block_size) fuel 0
                (mkFILE encrypted_file data (1 + _CHALLENGE_SIZE))) as Hcount.
  cbv zeta in Hcount.
  destruct (__find_block_slow_loop _ _ _ fuel _ _ _ _ _ _ _ _ _ _)
    as [ts [i| | |]] eqn:Hscan; try discriminate Hrun.
  unfold trace in Hcount. cbn [fst] in Hcount.
  unfold prepend, bind, emit, ret in Hrun. cbn [fst snd app] in Hrun.
  injection Hrun as Ht Hidx. subst t i.
  change 0 with (0 * block_size) in Hscan at 1.
  apply loop_sound in Hscan; try assumption; try reflexivity; try lia.
  cbn [fdata] in Hscan.
  destruct Hscan as (Hle & Hlt & Hacc & Hmin & Hseeks).
  repeat split; try assumption.
  - nia.
  - unfold scan_iterations. cbn [decrypt_paddings].
    rewrite decrypt_paddings_app. cbn [decrypt_paddings]. rewrite app_nil_r.
    fold (scan_iterations ts). rewrite Hcount, Hseeks. unfold scan_offsets.
    rewrite length_map, length_seq. f_equal. f_equal. lia.
  - rewrite !app_comm_cons. apply last_last.
Qed.

(** *** [decrypt_file] *)

(** The size [decrypt_file] hands on. *)
Local Abbreviation size_of fs encrypted_file :=
  (match fs encrypted_file with
   | Some data => to_size_t (Z.of_nat (List.length data))
   | None => 0
   end).

Local Abbreviation loaded_key fs private_key_file passphrase :=
  (match fs private_key_file with
   | Some data => PEM_read_RSAPrivateKey data passphrase
   | None => None
   end).

Lemma decrypt_file_no_key (fuel : nat) (fs : filesystem)
    (encrypted_file decrypted_file : string) (block_size : Z)
    (password : list byte) (private_key_file : string) (passphrase : list byte)
    (passed_block_index : Z) :
  _ispowerof2 block_size = true ->
  loaded_key fs private_key_file passphrase = None ->
  decrypt fuel fs encrypted_file decrypted_file block_size password
    private_key_file passphrase passed_block_index
  = ([EvFileSize encrypted_file]
       ++ trace (_read_private_key PEM_read_RSAPrivateKey fs private_key_file
                   passphrase)
       ++ [EvPrintf key_failed_msg], Exit 1).
Proof.
  intros Hpow Hkey. unfold decrypt_file, _get_file_size. mstep.
  rewrite Hpow. cbn [negb]. mstep. rewrite read_private_key_cases.
  destruct (fs private_key_file) as [data|]; [|reflexivity].
  destruct (PEM_read_RSAPrivateKey data passphrase); [discriminate Hkey|].
  reflexivity.
Qed.

Lemma decrypt_file_with_key (fuel : nat) (fs : filesystem)
    (encrypted_file decrypted_file : string) (block_size : Z)
    (password : list byte) (private_key_file : string) (passphrase : list byte)
    (passed_block_index : Z) (key : RSA) :
  _ispowerof2 block_size = true ->
  loaded_key fs private_key_file passphrase = Some key ->
  decrypt fuel fs encrypted_file decrypted_file block_size password
    private_key_file passphrase passed_block_index
  = prepend
      [EvFileSize encrypted_file; EvRSA_new; EvFopen private_key_file true;
       EvPEM_read true; EvFclose private_key_file]
      (selected_block_index <-
         (if passed_block_index <? 0 then
            find_selected_block fuel fs encrypted_file
              (size_of fs encrypted_file) block_size key (RSA_size key) password
          else ret (to_size_t passed_block_index)) ;;
       emit EvRSA_free ;;
       ret selected_block_index).
Proof.
  intros Hpow Hkey. unfold decrypt_file, _get_file_size. mstep.
  rewrite Hpow. cbn [negb]. mstep. rewrite read_private_key_cases.
  destruct (fs private_key_file) as [data|]; [|discriminate Hkey].
  rewrite Hkey. rewrite bind_value. cbv beta iota.
  rewrite prepend_prepend. reflexivity.
Qed.

(** A key that cannot be loaded, because its file is missing or does
    not parse under the passphrase, ends [decrypt_file] with the key
    message and exit status 1, whatever index was passed in: the
    encrypted file is never read and no candidate is tried. *)
Theorem decrypt_file_key_unavailable :
  forall (fuel : nat) (fs : filesystem) (encrypted_file decrypted_file : string)
         (block_size : Z) (password : list byte) (private_key_file : string)
         (passphrase : list byte) (passed_block_index : Z),
    _ispowerof2 block_size = true ->
    loaded_key fs private_key_file passphrase = None ->
    let run :=
      decrypt fuel fs encrypted_file decrypted_file block_size password
        private_key_file passphrase passed_block_index in
    result run = Exit 1 /\
    printed (trace run) = [key_failed_msg] /\
    scan_iterations (trace run) = 0%nat /\
    count (is_file_read encrypted_file) (trace run) = 0%nat.
Proof.
  intros fuel fs encrypted_file decrypted_file block_size password
    private_key_file passphrase passed_block_index Hpow Hkey run. subst run.
  rewrite decrypt_file_no_key by assumption.
  rewrite read_private_key_cases.
  destruct (fs private_key_file) as [data|].
  - rewrite Hkey. repeat split.
  - repeat split.
Qed.

(** A missing encrypted file is noticed only when the block has to be
    searched for: with the key loaded and a negative index passed in,
    [decrypt_file] fails to open the file, prints the message, frees the
    key once and exits with status 1. *)
Theorem decrypt_file_missing_encrypted_file :
  forall (fuel : nat) (fs : filesystem) (encrypted_file decrypted_file : string)
         (block_size : Z) (password : list byte) (private_key_file : string)
         (passphrase : list byte) (passed_block_index : Z) (key : RSA),
    _ispowerof2 block_size = true ->
    loaded_key fs private_key_file passphrase = Some key ->
    fs encrypted_file = None ->
    passed_block_index < 0 ->
    decrypt fuel fs encrypted_file decrypted_file block_size password
      private_key_file passphrase passed_block_index
    = ([EvFileSize encrypted_file; EvRSA_new; EvFopen private_key_file true;
        EvPEM_read true; EvFclose private_key_file;
        EvFopen encrypted_file false; EvPrintf open_failed_msg; EvRSA_free],
       Exit 1).
Proof.
  intros fuel fs encrypted_file decrypted_file block_size password
    private_key_file passphrase passed_block_index key Hpow Hkey Henc Hneg.
  rewrite (decrypt_file_with_key _ _ _ _ _ _ _ _ _ key) by assumption.
  replace (passed_block_index <? 0) with true by (symmetry; apply Z.ltb_lt; lia).
  rewrite find_selected_block_not_opened by assumption.
  reflexivity.
Qed.

(** The padding is settled by the key: in a whole [decrypt_file] run,
    every decryption attempt uses no padding when [block_size] equals
    the [RSA_size] of the loaded key and OAEP padding otherwise. *)
Theorem decrypt_file_one_padding :
  forall (fuel : nat) (fs : filesystem) (encrypted_file decrypted_file : string)
         (block_size : Z) (password : list byte) (private_key_file : string)
         (passphrase : list byte) (passed_block_index : Z) (key : RSA),
    0 <= _CHALLENGE_SIZE ->
    0 <= _AUTH_SIZE ->
    loaded_key fs private_key_file passphrase = Some key ->
    Forall
      (eq (if block_size =? RSA_size key then RSA_NO_PADDING
           else RSA_PKCS1_OAEP_PADDING))
      (decrypt_paddings
         (trace (decrypt fuel fs encrypted_file decrypted_file block_size
                   password private_key_file passphrase passed_block_index))).
Proof.
  intros fuel fs encrypted_file decrypted_file block_size password
    private_key_file passphrase passed_block_index key Hc Ha Hkey.
  destruct (_ispowerof2 block_size) eqn:Hpow.
  2:{ unfold decrypt_file, _get_file_size. mstep. rewrite Hpow. constructor. }
  rewrite (decrypt_file_with_key _ _ _ _ _ _ _ _ _ key) by assumption.
  rewrite trace_prepend, trace_bind, !decrypt_paddings_app.
  cbn [decrypt_paddings app].
  destruct (passed_block_index <? 0); [|constructor].
  apply Forall_app. split.
  - destruct (find_selected_block_paths fuel fs encrypted_file
                (size_of fs encrypted_file) block_size key (RSA_size key)
                password Hc Ha)
      as [(_ & Hpads & _) | [(_ & Hpads & _) | (data & _ & _ & _ & _ & Htrace)]].
    + rewrite Hpads. constructor.
    + rewrite Hpads. constructor.
    + cbv zeta in Htrace. rewrite Htrace, !decrypt_paddings_app.
      cbn [decrypt_paddings app].
      apply Forall_app. split.
      * unfold __find_block_slow. apply loop_paddings.
      * destruct (returns _); constructor.
  - destruct (result _); constructor.
Qed.

(** [decrypt_file] never frees the key twice: [RSA_free] is called at
    most once on every path, although both [decrypt_file] and the error
    handlers below it free the key; and a call that returns has freed
    the key exactly once. *)
Theorem decrypt_file_frees_key_once :
  forall (fuel : nat) (fs : filesystem) (encrypted_file decrypted_file : string)
         (block_size : Z) (password : list byte) (private_key_file : string)
         (passphrase : list byte) (passed_block_index : Z),
    0 <= _CHALLENGE_SIZE ->
    0 <= _AUTH_SIZE ->
    let run :=
      decrypt fuel fs encrypted_file decrypted_file block_size password
        private_key_file passphrase passed_block_index in
    (count is_RSA_free (trace run) <= 1)%nat /\
    (returns run = true -> count is_RSA_free (trace run) = 1%nat).
Proof.
  intros fuel fs encrypted_file decrypted_file block_size password
    private_key_file passphrase passed_block_index Hc Ha run. subst run.
  destruct (_ispowerof2 block_size) eqn:Hpow.
  2:{ unfold decrypt_file, _get_file_size. mstep. rewrite Hpow.
      split; [cbn; lia | discriminate]. }
  destruct (loaded_key fs private_key_file passphrase) as [key|] eqn:Hkey.
  2:{ rewrite decrypt_file_no_key by assumption.
      rewrite read_private_key_cases.
      destruct (fs private_key_file) as [data|];
        [rewrite Hkey|]; (split; [cbn; lia | discriminate]). }
  rewrite (decrypt_file_with_key _ _ _ _ _ _ _ _ _ key) by assumption.
  unfold returns. rewrite result_prepend, trace_prepend, result_bind, trace_bind.
  destruct (passed_block_index <? 0).
  2:{ cbn. split; [lia | reflexivity]. }
  rewrite count_app, (count_app _ (trace _)).
  change (count is_RSA_free
            [EvFileSize encrypted_file; EvRSA_new;
             EvFopen private_key_file true; EvPEM_read true;
             EvFclose private_key_file]) with 0%nat.
  cbn [Nat.add].
  destruct (find_selected_block_paths fuel fs encrypted_file
              (size_of fs encrypted_file) block_size key (RSA_size key)
              password Hc Ha)
    as [(Hres & _ & Hfree & _)
       | [(Hres & _ & Hfree & _)
         | (data & _ & _ & _ & Hres & Htrace)]].
  - rewrite Hres, Hfree. cbn. split; [lia | discriminate].
  - rewrite Hres, Hfree. cbn. split; [lia | reflexivity].
  - cbv zeta in Hres, Htrace. rewrite Hres, Htrace, !count_app.
    destruct (scan_trace_counts fuel
                (mkFILE encrypted_file data (1 + _CHALLENGE_SIZE))
                encrypted_file (size_of fs encrypted_file) block_size key
                (RSA_size key) password (window data 1 _CHALLENGE_SIZE))
      as (Hf & _ & _).
    cbv zeta in Hf. rewrite Hf.
    unfold returns.
    destruct (result (find_block_slow _ _ _ _ _ _ _ _)); cbn;
      (split; [lia | try discriminate; try reflexivity]).
Qed.

End EveryPath.

(** ** The further properties on concrete files *)

(** The not-found run: key and file are left as they were. *)
Lemma find_selected_block_releases_witness :
  let run :=
    toy_find_selected_block 20 (toy_fs wrong_challenge_file x20) "enc" 97 16
      (toy_rsa 32) 32 pw in
  (count is_RSA_free (trace run) <= 1)%nat /\
  (count (is_fclose "enc") (trace run)
     <= count (is_fopen "enc") (trace run) <= 1)%nat /\
  (returns run = true ->
   count is_RSA_free (trace run) = 0%nat /\
   count (is_fclose "enc") (trace run) = 1%nat /\
   count (is_fopen "enc") (trace run) = 1%nat).
Proof.
  apply (find_selected_block_releases 32 32 32 toy_hash 20
           (toy_fs wrong_challenge_file x20) "enc" 97 16 (toy_rsa 32) 32 pw).
  - lia.
  - lia.
Defined.

Lemma find_selected_block_slow_first_match_witness :
  let accepted :=
    accepts 32 32 toy_hash slow_file 33 16 (toy_rsa 32) 32 pw key_challenge in
  let t :=
    trace (toy_find_selected_block 20 (toy_fs slow_file x20) "enc" 97 16
             (toy_rsa 32) 32 pw) in
  0 <= 16 < 97 /\
  accepted 16 = true /\
  (forall j, 0 <= j < 1 -> accepted (j * 16) = false) /\
  scan_iterations t = 2%nat /\
  last t EvRSA_new = EvFclose "enc".
Proof.
  apply (find_selected_block_slow_first_match 32 32 32 toy_hash 20
           (toy_fs slow_file x20) "enc" 97 16 (toy_rsa 32) 32 pw slow_file
           _ 1).
  - lia.
  - reflexivity.
  - vm_compute. discriminate.
  - reflexivity.
  - lia.
  - unfold SIZE_MAX_plus_1. lia.
  - unfold LONG_MAX_plus_1. lia.
  - vm_compute. reflexivity.
Defined.

(** No file "nokey.pem" exists. *)
Lemma decrypt_file_key_unavailable_witness :
  let run :=
    toy_decrypt_file 20 (toy_fs slow_file x20) "enc" "out" 16 pw "nokey.pem" []
      (-1) in
  result run = Exit 1 /\
  printed (trace run) = [key_failed_msg] /\
  scan_iterations (trace run) = 0%nat /\
  count (is_file_read "enc") (trace run) = 0%nat.
Proof.
  apply (decrypt_file_key_unavailable 32 32 32 128 toy_hash toy_PEM_read 20
           (toy_fs slow_file x20) "enc" "out" 16 pw "nokey.pem" [] (-1)).
  - reflexivity.
  - reflexivity.
Defined.

(** No file "gone" exists. *)
Lemma decrypt_file_missing_encrypted_file_witness :
  toy_decrypt_file 20 (toy_fs slow_file x20) "gone" "out" 16 pw "key.pem" []
    (-1)
  = ([EvFileSize "gone"; EvRSA_new; EvFopen "key.pem" true; EvPEM_read true;
      EvFclose "key.pem"; EvFopen "gone" false; EvPrintf open_failed_msg;
      EvRSA_free], Exit 1).
Proof.
  apply (decrypt_file_missing_encrypted_file 32 32 32 128 toy_hash toy_PEM_read
           20 (toy_fs slow_file x20) "gone" "out" 16 pw "key.pem" [] (-1)
           (toy_rsa 32)).
  - reflexivity.
  - reflexivity.
  - reflexivity.
  - lia.
Defined.

Lemma decrypt_file_one_padding_witness :
  Forall (eq RSA_PKCS1_OAEP_PADDING)
    (decrypt_paddings
       (trace (toy_decrypt_file 20 (toy_fs slow_file x20) "enc" "out" 16 pw
                 "key.pem" [] (-1)))).
Proof.
  apply (decrypt_file_one_padding 32 32 32 128 toy_hash toy_PEM_read 20
           (toy_fs slow_file x20) "enc" "out" 16 pw "key.pem" [] (-1)
           (toy_rsa 32)).
  - lia.
  - lia.
  - reflexivity.
Defined.

Lemma decrypt_file_frees_key_once_witness :
  let run :=
    toy_decrypt_file 20 (toy_fs slow_file x20) "enc" "out" 16 pw "key.pem" []
      (-1) in
  (count is_RSA_free (trace run) <= 1)%nat /\
  (returns run = true -> count is_RSA_free (trace run) = 1%nat).
Proof.
  apply (decrypt_file_frees_key_once 32 32 32 128 toy_hash toy_PEM_read 20
           (toy_fs slow_file x20) "enc" "out" 16 pw "key.pem" [] (-1)).
  - lia.
  - lia.
Defined.
